(** * Reviewer assignment engine of [auto-assign-reviewers/index.js]

    A shallow embedding of [matchPattern] and of the matching, scoring and
    selection part of [run], followed by the properties of the engine.

    JavaScript strings are modelled as lists of 8-bit characters (the code
    units 0..255); configuration values parsed from YAML are modelled by
    [jsval]; exceptions are modelled by the [result] type. *)

From Stdlib Require Import Ascii String.
From Stdlib Require Import List Bool Arith ZArith Lia Permutation Sorted.
Import ListNotations.

(* ================================================================== *)
(** * JavaScript strings *)
(* ================================================================== *)

Module JsString.

Definition jsstring := list ascii.

(** String literals: [str "a/b"] is the JavaScript string ['a/b']. *)
Definition str (s : string) : jsstring := list_ascii_of_string s.

(** Strict equality [a === b] of two strings. *)
Fixpoint eqs (a b : jsstring) : bool :=
  match a, b with
  | [], [] => true
  | x :: a', y :: b' => Ascii.eqb x y && eqs a' b'
  | _, _ => false
  end.

(** [s.startsWith(p)] *)
Fixpoint startsWith (p s : jsstring) : bool :=
  match p with
  | [] => true
  | x :: p' =>
      match s with
      | [] => false
      | y :: s' => Ascii.eqb x y && startsWith p' s'
      end
  end.

(** [s.replace(/pat/g, rep)] for a regular expression [pat] that is a plain
    sequence of (escaped) characters and a replacement without [$]: the
    leftmost occurrence is replaced and the scan resumes behind it.
    [skip] counts the characters of the current occurrence still to drop. *)
Fixpoint replaceFrom (pat rep : jsstring) (skip : nat) (s : jsstring) : jsstring :=
  match s with
  | [] => []
  | c :: s' =>
      match skip with
      | S k => replaceFrom pat rep k s'
      | O =>
          if startsWith pat s
          then rep ++ replaceFrom pat rep (length pat - 1) s'
          else c :: replaceFrom pat rep 0 s'
      end
  end.

Definition replaceAll (pat rep s : jsstring) : jsstring := replaceFrom pat rep 0 s.

(** [toLowerCase] on the code units 0..255: [A-Z] and the Latin-1 capitals
    U+00C0..U+00DE other than U+00D7 are moved up by 32. *)
Definition lowerChar (c : ascii) : ascii :=
  let n := nat_of_ascii c in
  if ((65 <=? n) && (n <=? 90)) || ((192 <=? n) && (n <=? 222) && negb (n =? 215))
  then ascii_of_nat (n + 32)
  else c.

Definition toLowerCase (s : jsstring) : jsstring := map lowerChar s.

End JsString.
Import JsString.

(* ================================================================== *)
(** * Regular expressions: the fragment [matchPattern] compiles to *)
(* ================================================================== *)

Module Regex.

Inductive regex : Type :=
| REmpty                                  (* the empty alternative *)
| RChar (c : ascii)                       (* a pattern character or [\c] *)
| RAny                                    (* [.] *)
| RClass (neg : bool) (cs : list ascii)   (* [[...]] and [[^...]] *)
| RBol                                    (* [^] *)
| REol                                    (* [$] *)
| RSeq (r1 r2 : regex)
| RAlt (r1 r2 : regex)
| RStar (r : regex).

(** ** [new RegExp(source)] *)

Inductive mode : Type :=
| MNormal
| MEscape                                   (* behind a backslash *)
| MClassOpen                                (* behind [[] *)
| MClass (neg : bool) (members : list ascii) (* inside a class, members reversed *).

(** One open disjunction: the finished alternatives and the terms of the
    current one, both most recent first; [quantifiable] tells whether the
    last term is an atom that a quantifier may follow. *)
Record frame : Type := mkFrame {
  alts : list regex;
  terms : list regex;
  quantifiable : bool
}.

Record pstate : Type := mkState {
  st_mode : mode;
  st_cur : frame;
  st_stack : list frame
}.

Definition emptyFrame : frame := mkFrame [] [] false.
Definition initState : pstate := mkState MNormal emptyFrame [].

Fixpoint seqOf (ts : list regex) : regex :=
  match ts with
  | [] => REmpty
  | t :: ts' => RSeq t (seqOf ts')
  end.

Fixpoint altOf (r : regex) (rs : list regex) : regex :=
  match rs with
  | [] => r
  | r' :: rs' => RAlt r (altOf r' rs')
  end.

(** The disjunction a frame stands for. *)
Definition closeFrame (f : frame) : regex :=
  match rev (seqOf (rev (terms f)) :: alts f) with
  | [] => REmpty
  | r :: rs => altOf r rs
  end.

Definition pushTerm (q : bool) (t : regex) (st : pstate) : pstate :=
  let f := st_cur st in
  mkState MNormal (mkFrame (alts f) (t :: terms f) q) (st_stack st).

Definition quantify (wrap : regex -> regex) (st : pstate) : option pstate :=
  let f := st_cur st in
  match terms f with
  | t :: ts =>
      if quantifiable f
      then Some (mkState MNormal (mkFrame (alts f) (wrap t :: ts) false) (st_stack st))
      else None
  | [] => None
  end.

(** The syntax characters of the pattern grammar. *)
Definition syntaxChars : list ascii :=
  list_ascii_of_string "^$\.*+?()[]{}|".

Definition isSyntaxChar (c : ascii) : bool :=
  existsb (Ascii.eqb c) syntaxChars.

(** The parser reads the source one character at a time.  [None] is the
    [SyntaxError] thrown by the constructor; sources outside the modelled
    fragment (class escapes, ranges, braces, lazy quantifiers, look-around)
    are answered [None] too. *)
Definition step (st : pstate) (c : ascii) : option pstate :=
  match st_mode st with
  | MNormal =>
      if Ascii.eqb c "\" then Some (mkState MEscape (st_cur st) (st_stack st))
      else if Ascii.eqb c "[" then Some (mkState MClassOpen (st_cur st) (st_stack st))
      else if Ascii.eqb c "(" then Some (mkState MNormal emptyFrame (st_cur st :: st_stack st))
      else if Ascii.eqb c ")" then
        match st_stack st with
        | [] => None
        | f :: stk =>
            Some (mkState MNormal
                    (mkFrame (alts f) (closeFrame (st_cur st) :: terms f) true) stk)
        end
      else if Ascii.eqb c "|" then
        let f := st_cur st in
        Some (mkState MNormal
                (mkFrame (seqOf (rev (terms f)) :: alts f) [] false) (st_stack st))
      else if Ascii.eqb c "*" then quantify RStar st
      else if Ascii.eqb c "+" then quantify (fun t => RSeq t (RStar t)) st
      else if Ascii.eqb c "?" then quantify (fun t => RAlt t REmpty) st
      else if Ascii.eqb c "." then Some (pushTerm true RAny st)
      else if Ascii.eqb c "^" then Some (pushTerm false RBol st)
      else if Ascii.eqb c "$" then Some (pushTerm false REol st)
      else if Ascii.eqb c "{" || Ascii.eqb c "}" || Ascii.eqb c "]" then None
      else Some (pushTerm true (RChar c) st)
  | MEscape =>
      if isSyntaxChar c || Ascii.eqb c "/"
      then Some (pushTerm true (RChar c) st)
      else None
  | MClassOpen =>
      if Ascii.eqb c "^" then Some (mkState (MClass true []) (st_cur st) (st_stack st))
      else if Ascii.eqb c "]" then Some (pushTerm true (RClass false []) st)
      else if Ascii.eqb c "\" || Ascii.eqb c "-" then None
      else Some (mkState (MClass false [c]) (st_cur st) (st_stack st))
  | MClass neg ms =>
      if Ascii.eqb c "]" then Some (pushTerm true (RClass neg (rev ms)) st)
      else if Ascii.eqb c "\" || Ascii.eqb c "-" then None
      else Some (mkState (MClass neg (c :: ms)) (st_cur st) (st_stack st))
  end.

Definition finish (st : pstate) : option regex :=
  match st_mode st, st_stack st with
  | MNormal, [] => Some (closeFrame (st_cur st))
  | _, _ => None
  end.

Fixpoint parse (st : pstate) (src : jsstring) : option regex :=
  match src with
  | [] => finish st
  | c :: src' =>
      match step st c with
      | Some st' => parse st' src'
      | None => None
      end
  end.

Definition RegExp (src : jsstring) : option regex := parse initState src.

(** ** [regex.test(s)] *)

(** Line terminators, which [.] does not match (no [s] flag). *)
Definition isLineTerminator (c : ascii) : bool :=
  Ascii.eqb c "010" || Ascii.eqb c "013".

Definition oneChar (p : ascii -> bool) (k : nat -> jsstring -> bool)
    (i : nat) (s : jsstring) : bool :=
  match s with
  | [] => false
  | c :: s' => p c && k (S i) s'
  end.

(** The iterations of [r*], where [m1] matches [r]: an iteration has to
    consume at least one character, so that [length s] iterations are
    enough for the input [s]. *)
Fixpoint starLoop (m1 : (nat -> jsstring -> bool) -> nat -> jsstring -> bool)
    (k : nat -> jsstring -> bool) (fuel : nat) (i : nat) (s : jsstring) : bool :=
  match fuel with
  | O => k i s
  | S fuel' =>
      m1 (fun i' s' => (length s' <? length s) && starLoop m1 k fuel' i' s') i s
      || k i s
  end.

(** Backtracking matcher in continuation-passing style: [rmatch r k i s]
    tells whether [r] matches a prefix of [s], the input from index [i] on,
    such that the continuation [k] accepts the rest. *)
Fixpoint rmatch (r : regex) (k : nat -> jsstring -> bool) (i : nat) (s : jsstring)
    {struct r} : bool :=
  match r with
  | REmpty => k i s
  | RChar c => oneChar (Ascii.eqb c) k i s
  | RAny => oneChar (fun x => negb (isLineTerminator x)) k i s
  | RClass neg cs => oneChar (fun x => xorb neg (existsb (Ascii.eqb x) cs)) k i s
  | RBol => (i =? 0) && k i s
  | REol => match s with [] => k i s | _ :: _ => false end
  | RSeq r1 r2 => rmatch r1 (rmatch r2 k) i s
  | RAlt r1 r2 => rmatch r1 k i s || rmatch r2 k i s
  | RStar r1 => starLoop (rmatch r1) k (length s) i s
  end.

(** Without the [g] and [y] flags [test] tries every start index. *)
Fixpoint searchFrom (r : regex) (i : nat) (s : jsstring) : bool :=
  rmatch r (fun _ _ => true) i s
  || match s with
     | [] => false
     | _ :: s' => searchFrom r (S i) s'
     end.

Definition test (r : regex) (s : jsstring) : bool := searchFrom r 0 s.

End Regex.
Import Regex.

(* ================================================================== *)
(** * Values and exceptions *)
(* ================================================================== *)

(** A value of the parsed configuration: a missing field, or a YAML scalar
    or sequence. *)
#[local] Unset Elimination Schemes.
Inductive jsval : Type :=
| JUndefined
| JNull
| JBool (b : bool)
| JNumber (n : Z)
| JString (s : jsstring)
| JArray (elems : list jsval).
#[local] Set Elimination Schemes.

Inductive exn : Type := TypeError | SyntaxError.

Inductive result (A : Type) : Type :=
| Ok (a : A)
| Throw (e : exn).
Arguments Ok {A} a.
Arguments Throw {A} e.

Definition bind {A B : Type} (x : result A) (f : A -> result B) : result B :=
  match x with
  | Ok a => f a
  | Throw e => Throw e
  end.

Notation "x <- e1 ;; e2" := (bind e1 (fun x => e2))
  (at level 61, e1 at next level, right associativity).

(* ================================================================== *)
(** * [matchPattern] *)
(* ================================================================== *)

(** The characters of the class [[.+^${}()|[\]\\]]. *)
Definition specialChars : list ascii :=
  list_ascii_of_string ".+^${}()|[]\".

Definition isSpecial (c : ascii) : bool := existsb (Ascii.eqb c) specialChars.

(** [.replace(/[.+^${}()|[\]\\]/g, '\\$&')] *)
Definition escapeSpecial (s : jsstring) : jsstring :=
  flat_map (fun c => if isSpecial c then ["\"%char; c] else [c]) s.

(** The placeholder that stands for [**] while [*] is replaced. *)
Definition GLOBSTAR : jsstring := str "{{GLOBSTAR}}".

(** The string [regexStr] that [matchPattern] hands to [new RegExp]. *)
Definition regexSource (pattern : jsstring) : jsstring :=
  let regexStr := escapeSpecial pattern in
  let regexStr := replaceAll (str "**") GLOBSTAR regexStr in
  let regexStr := replaceAll (str "*") (str "[^/]*") regexStr in
  let regexStr := replaceAll (str "?") (str "[^/]") regexStr in
  let regexStr := replaceAll GLOBSTAR (str ".*") regexStr in
  let regexStr :=
    if negb (startsWith (str "/") pattern)
    then str "(^|/)" ++ regexStr
    else regexStr in
  regexStr ++ str "$".

(** [matchPattern(filePath, pattern)].  [filePath] is a file name of the
    pull request, a string; [pattern] comes from the configuration, and a
    value that is no string has no [replace] method. *)
Definition matchPattern (filePath : jsstring) (pattern : jsval) : result bool :=
  match pattern with
  | JString p =>
      match RegExp (regexSource p) with
      | Some regex => Ok (test regex filePath)
      | None => Throw SyntaxError
      end
  | _ => Throw TypeError
  end.

(* ================================================================== *)
(** * The configuration and the score table *)
(* ================================================================== *)

(** One entry of [config.reviewers]. *)
Record rule : Type := mkRule {
  patterns : jsval;
  users : jsval
}.

(** [defaults] is [None] when [config.defaults] is missing, and
    [Some v] when it is an object whose [reviewers] field holds [v]
    ([JUndefined] when the field is missing). *)
Record config : Type := mkConfig {
  reviewers : list rule;
  defaults : option jsval
}.

(** The result of [parseInt]. *)
Inductive jsint : Type :=
| NaN
| Int (z : Z).

(** [Array.isArray(v) ? v : [v]] *)
Definition asArray (v : jsval) : list jsval :=
  match v with
  | JArray l => l
  | _ => [v]
  end.

(** Truthiness of a value, for [&&] and [if]. *)
Definition truthy (v : jsval) : bool :=
  match v with
  | JUndefined => false
  | JNull => false
  | JBool b => b
  | JNumber n => negb (n =? 0)%Z
  | JString s => negb (length s =? 0)
  | JArray _ => true
  end.

(** [reviewerScores], a [Map] from reviewer to score: the entries in
    insertion order, at most one per key. *)
Definition scoreMap := list (jsstring * Z).

Fixpoint mapGet (m : scoreMap) (key : jsstring) : option Z :=
  match m with
  | [] => None
  | (k, v) :: m' => if eqs k key then Some v else mapGet m' key
  end.

(** [m.set(key, v)]: an existing key keeps its place. *)
Fixpoint mapSet (m : scoreMap) (key : jsstring) (v : Z) : scoreMap :=
  match m with
  | [] => [(key, v)]
  | (k, v') :: m' => if eqs k key then (k, v) :: m' else (k, v') :: mapSet m' key v
  end.

(** [x || 0] for [x] a score or [undefined]. *)
Definition orZero (x : option Z) : Z :=
  match x with
  | Some v => v
  | None => 0%Z
  end.

(* ================================================================== *)
(** * [run]: matching, scoring and selection *)
(* ================================================================== *)

(** The loop over [patterns] for one file, left by [break] at the first
    match. *)
Fixpoint matchAnyPattern (file : jsstring) (pats : list jsval) : result bool :=
  match pats with
  | [] => Ok false
  | pattern :: pats' =>
      b <- matchPattern file pattern ;;
      if b then Ok true else matchAnyPattern file pats'
  end.

(** The loop over [changedFiles], left as soon as [matched] is set. *)
Fixpoint matchAnyFile (changedFiles : list jsstring) (pats : list jsval) : result bool :=
  match changedFiles with
  | [] => Ok false
  | file :: files' =>
      matched <- matchAnyPattern file pats ;;
      if matched then Ok true else matchAnyFile files' pats
  end.

(** The loop over [reviewers] of a matched rule.  A reviewer that is no
    string has no [toLowerCase] method. *)
Fixpoint addReviewers (revs : list jsval) (prAuthor : jsstring) (scores : scoreMap)
    : result scoreMap :=
  match revs with
  | [] => Ok scores
  | JString reviewer :: revs' =>
      if eqs (toLowerCase reviewer) (toLowerCase prAuthor)
      then addReviewers revs' prAuthor scores
      else
        let currentScore := orZero (mapGet scores reviewer) in
        addReviewers revs' prAuthor (mapSet scores reviewer (currentScore + 1)%Z)
  | _ :: _ => Throw TypeError
  end.

(** The body of [for (const rule of config.reviewers)]. *)
Definition scoreRule (changedFiles : list jsstring) (prAuthor : jsstring)
    (scores : scoreMap) (r : rule) : result scoreMap :=
  let pats := asArray (patterns r) in
  let revs := asArray (users r) in
  matched <- matchAnyFile changedFiles pats ;;
  if matched then addReviewers revs prAuthor scores else Ok scores.

Fixpoint scoreRules (changedFiles : list jsstring) (prAuthor : jsstring)
    (rules : list rule) (scores : scoreMap) : result scoreMap :=
  match rules with
  | [] => Ok scores
  | r :: rules' =>
      scores' <- scoreRule changedFiles prAuthor scores r ;;
      scoreRules changedFiles prAuthor rules' scores'
  end.

(** [defaults.filter((r) => r.toLowerCase() !== prAuthor.toLowerCase())] on
    the elements of an array. *)
Fixpoint filterNotAuthor (elems : list jsval) (prAuthor : jsstring)
    : result (list jsstring) :=
  match elems with
  | [] => Ok []
  | JString r :: elems' =>
      rest <- filterNotAuthor elems' prAuthor ;;
      if negb (eqs (toLowerCase r) (toLowerCase prAuthor))
      then Ok (r :: rest)
      else Ok rest
  | _ :: _ => Throw TypeError
  end.

(** [v.filter(...)]: only arrays have the method. *)
Definition filterDefaults (v : jsval) (prAuthor : jsstring) : result (list jsstring) :=
  match v with
  | JArray elems => filterNotAuthor elems prAuthor
  | _ => Throw TypeError
  end.

(** [entries.sort((a, b) => b[1] - a[1])]: [Array.prototype.sort] is
    stable, so the result is the stable sort by descending score, written
    here as an insertion sort. *)
Fixpoint insertEntry (e : jsstring * Z) (l : list (jsstring * Z)) : list (jsstring * Z) :=
  match l with
  | [] => [e]
  | e' :: l' =>
      if (snd e' - snd e <=? 0)%Z then e :: e' :: l' else e' :: insertEntry e l'
  end.

Fixpoint sortByScore (l : list (jsstring * Z)) : list (jsstring * Z) :=
  match l with
  | [] => []
  | e :: l' => insertEntry e (sortByScore l')
  end.

(** [l.slice(0, end)] *)
Definition slice0 {A : Type} (l : list A) (end_ : jsint) : list A :=
  let len := Z.of_nat (length l) in
  let relativeEnd := match end_ with NaN => 0%Z | Int z => z end in
  let final :=
    if (relativeEnd <? 0)%Z then Z.max (len + relativeEnd) 0 else Z.min relativeEnd len in
  firstn (Z.to_nat final) l.

(** [run], from the first use of [changedFiles] on: the list of reviewers
    that is requested and written to [assigned-reviewers] (empty when
    nothing is requested); [Throw] when an exception reaches the handler
    of [run], which reports it through [core.setFailed].  The parts of
    [run] before it read the inputs: the action stops there when the event
    has no pull request, when the configuration file cannot be read, or when
    [config.reviewers] is missing.  The requests to the platform are taken
    to succeed. *)
Definition run (changedFiles : list jsstring) (cfg : config) (prAuthor : jsstring)
    (maxReviewers : jsint) : result (list jsstring) :=
  reviewerScores <- scoreRules changedFiles prAuthor (reviewers cfg) [] ;;
  if length reviewerScores =? 0 then
    match defaults cfg with
    | Some defaultReviewers =>
        if truthy defaultReviewers then
          filtered <- filterDefaults defaultReviewers prAuthor ;;
          let selected := slice0 filtered maxReviewers in
          if 0 <? length selected then Ok selected else Ok []
        else Ok []
    | None => Ok []
    end
  else
    let sortedReviewers :=
      slice0 (map fst (sortByScore reviewerScores)) maxReviewers in
    Ok sortedReviewers.

(* ================================================================== *)
(** * Definitions used to state and prove the properties *)
(* ================================================================== *)

(** The glob tokens that the chain of replacements of [matchPattern]
    distinguishes, read from left to right. *)
Inductive token : Type :=
| TLit (c : ascii)
| TStar
| TQuestion
| TGlobstar.

Fixpoint tokenize (p : jsstring) : list token :=
  match p with
  | [] => []
  | c :: p1 =>
      if Ascii.eqb c "*" then
        match p1 with
        | [] => [TStar]
        | c2 :: p2 =>
            if Ascii.eqb c2 "*" then TGlobstar :: tokenize p2 else TStar :: tokenize p1
        end
      else if Ascii.eqb c "?" then TQuestion :: tokenize p1
      else TLit c :: tokenize p1
  end.

(** The text of a token in the string under construction, given the
    current texts of the three wildcards. *)
Definition tokenSource (star question globstar : jsstring) (t : token) : jsstring :=
  match t with
  | TLit c => if isSpecial c then ["\"%char; c] else [c]
  | TStar => star
  | TQuestion => question
  | TGlobstar => globstar
  end.

(** The regular expression a token is compiled to. *)
Definition tokenRegex (t : token) : regex :=
  match t with
  | TLit c => RChar c
  | TStar => RStar (RClass true ["/"%char])
  | TQuestion => RClass true ["/"%char]
  | TGlobstar => RStar RAny
  end.

(** The group [(^|/)]. *)
Definition anchorGroup : regex :=
  RAlt (RSeq RBol REmpty) (RSeq (RChar "/") REmpty).

(** The regular expression [matchPattern] builds for [pattern]. *)
Definition globRegex (pattern : jsstring) : regex :=
  seqOf ((if negb (startsWith (str "/") pattern) then [anchorGroup] else [])
         ++ map tokenRegex (tokenize pattern) ++ [REol]).

(** Token lists as [tokenize] produces them: a literal is neither [*] nor
    [?], and a single [*] is not followed by another [*]. *)
Fixpoint wfTokens (ts : list token) : Prop :=
  match ts with
  | [] => True
  | t :: ts' =>
      match t with
      | TLit c => c <> "*"%char /\ c <> "?"%char
      | TStar => match ts' with TStar :: _ | TGlobstar :: _ => False | _ => True end
      | _ => True
      end /\ wfTokens ts'
  end.

(** Number of path separators of a string. *)
Definition slashes (s : jsstring) : nat := count_occ ascii_dec s "/"%char.

(** Least number of path separators in a string matched by a regular
    expression. *)
Fixpoint minSlashes (r : regex) : nat :=
  match r with
  | RChar c => if Ascii.eqb c "/" then 1 else 0
  | RSeq r1 r2 => minSlashes r1 + minSlashes r2
  | RAlt r1 r2 => Nat.min (minSlashes r1) (minSlashes r2)
  | _ => 0
  end.

(** [r*] for [r] a single character with property [p]. *)
Fixpoint starChars (p : ascii -> bool) (k : nat -> jsstring -> bool)
    (i : nat) (s : jsstring) : bool :=
  match s with
  | [] => k i []
  | c :: s' => (p c && starChars p k (S i) s') || k i s
  end.

(** A pattern without wildcards. *)
Definition literal (p : jsstring) : Prop :=
  Forall (fun c => c <> "*"%char /\ c <> "?"%char) p.

(** The continuation that accepts: the match may end anywhere. *)
Definition accept : nat -> jsstring -> bool := fun _ _ => true.

(** The rule matches the change set. *)
Definition ruleMatched (changedFiles : list jsstring) (r : rule) : result bool :=
  matchAnyFile changedFiles (asArray (patterns r)).

Definition jsstring_dec : forall a b : jsstring, {a = b} + {a <> b} :=
  list_eq_dec ascii_dec.

(** The reviewers of the table, in insertion order. *)
Definition keys (m : scoreMap) : list jsstring := map fst m.

(** A reviewer that the exclusion of the author lets through. *)
Definition notAuthor (prAuthor name : jsstring) : Prop :=
  toLowerCase name <> toLowerCase prAuthor.

(** The list [run] truncates: the reviewers by descending score, or the
    filtered defaults. *)
Definition candidates (changedFiles : list jsstring) (cfg : config)
    (prAuthor : jsstring) : result (list jsstring) :=
  reviewerScores <- scoreRules changedFiles prAuthor (reviewers cfg) [] ;;
  if length reviewerScores =? 0 then
    match defaults cfg with
    | Some defaultReviewers =>
        if truthy defaultReviewers
        then filterDefaults defaultReviewers prAuthor
        else Ok []
    | None => Ok []
    end
  else Ok (map fst (sortByScore reviewerScores)).

(** What the tokens of a pattern match, read off the regular expressions
    they are compiled to: a literal matches itself, [?] one character
    other than the separator, [*] a run of such characters, and [**] a run
    of characters other than line terminators. *)
Fixpoint tokMatch (ts : list token) (s : jsstring) : Prop :=
  match ts with
  | [] => s = []
  | TLit c :: ts' => exists s', s = c :: s' /\ tokMatch ts' s'
  | TQuestion :: ts' =>
      exists c s', s = c :: s' /\ c <> "/"%char /\ tokMatch ts' s'
  | TStar :: ts' =>
      exists m s', s = m ++ s' /\ Forall (fun c => c <> "/"%char) m /\ tokMatch ts' s'
  | TGlobstar :: ts' =>
      exists m s',
        s = m ++ s' /\ Forall (fun c => isLineTerminator c = false) m
        /\ tokMatch ts' s'
  end.

(** Where in a path a match of [pattern] may start, given the part [x] of
    the path in front of it: anywhere for a pattern with a leading
    separator, and otherwise at the start of the path or behind a
    separator. *)
Definition atBoundary (pattern x : jsstring) : Prop :=
  if startsWith (str "/") pattern
  then True
  else x = [] \/ exists y, x = y ++ str "/".

(** The value is the string [u]. *)
Definition isName (u : jsstring) (v : jsval) : bool :=
  match v with
  | JString s => eqs s u
  | _ => false
  end.

(** How often the matching rules list [u]. *)
Fixpoint listings (changedFiles : list jsstring) (u : jsstring) (rules : list rule)
    : nat :=
  match rules with
  | [] => 0
  | r :: rules' =>
      match ruleMatched changedFiles r with
      | Ok true => length (filter (isName u) (asArray (users r)))
      | _ => 0
      end + listings changedFiles u rules'
  end.

(** A field that holds a string or a list of strings. *)
Definition stringsOnly (v : jsval) : Prop :=
  exists l, asArray v = map JString l.

(** [x] comes before [y] in [l]. *)
Definition before {A : Type} (x y : A) (l : list A) : Prop :=
  exists l1 l2 l3, l = l1 ++ x :: l2 ++ y :: l3.

(** The score of a reviewer in the table, 0 when there is none. *)
Definition scoreOf (t : scoreMap) (u : jsstring) : Z := orZero (mapGet t u).

(* ================================================================== *)
(** * Strings and replacement *)
(* ================================================================== *)

Lemma eqs_refl (a : jsstring) : eqs a a = true.
Proof.
  induction a as [|x a IH]; simpl; [reflexivity|].
  now rewrite Ascii.eqb_refl, IH.
Qed.

Lemma eqs_eq (a b : jsstring) : eqs a b = true <-> a = b.
Proof.
  split.
  - revert b. induction a as [|x a IH]; intros [|y b] H; simpl in H;
      try discriminate; [reflexivity|].
    apply andb_true_iff in H as [Hxy Hab].
    apply Ascii.eqb_eq in Hxy. f_equal; auto.
  - intros ->. apply eqs_refl.
Qed.

Lemma eqs_neq (a b : jsstring) : eqs a b = false <-> a <> b.
Proof.
  rewrite <- eqs_eq. destruct (eqs a b); split; congruence.
Qed.

Lemma startsWith_app (p s : jsstring) : startsWith p (p ++ s) = true.
Proof.
  induction p as [|x p IH]; simpl; [reflexivity|].
  now rewrite Ascii.eqb_refl, IH.
Qed.

Lemma startsWith_true (p s : jsstring) :
  startsWith p s = true <-> exists t, s = p ++ t.
Proof.
  split.
  - revert s. induction p as [|x p IH]; intros s H; simpl in H.
    + now exists s.
    + destruct s as [|y s]; [discriminate|].
      apply andb_true_iff in H as [Hxy Hp].
      apply Ascii.eqb_eq in Hxy. subst y.
      destruct (IH _ Hp) as [t ->]. now exists t.
  - intros [t ->]. apply startsWith_app.
Qed.

(** Dropping the rest of an occurrence. *)
Lemma replaceFrom_skip (pat rep u s : jsstring) :
  replaceFrom pat rep (length u) (u ++ s) = replaceFrom pat rep 0 s.
Proof.
  induction u as [|c u IH]; simpl; [|exact IH].
  destruct s; reflexivity.
Qed.

(** An occurrence at the head is replaced. *)
Lemma replaceFrom_hit (pat rep s : jsstring) :
  pat <> [] ->
  replaceFrom pat rep 0 (pat ++ s) = rep ++ replaceFrom pat rep 0 s.
Proof.
  destruct pat as [|c pat]; [congruence|intros _].
  change (replaceFrom (c :: pat) rep 0 ((c :: pat) ++ s))
    with (if startsWith (c :: pat) ((c :: pat) ++ s)
          then rep ++ replaceFrom (c :: pat) rep (length (c :: pat) - 1) (pat ++ s)
          else c :: replaceFrom (c :: pat) rep 0 (pat ++ s)).
  rewrite startsWith_app.
  replace (length (c :: pat) - 1) with (length pat) by (simpl; lia).
  now rewrite replaceFrom_skip.
Qed.

(** Characters other than the first of the pattern are copied. *)
Lemma replaceFrom_copy (c : ascii) (pat rep u s : jsstring) :
  startsWith [c] pat = true ->
  Forall (fun x => x <> c) u ->
  replaceFrom pat rep 0 (u ++ s) = u ++ replaceFrom pat rep 0 s.
Proof.
  intros Hpat. induction 1 as [|x u Hx _ IH]; [reflexivity|].
  cbn [app replaceFrom].
  destruct pat as [|c' pat]; [discriminate|].
  cbn [startsWith] in *.
  destruct (Ascii.eqb_spec c c') as [<-|]; [|discriminate].
  destruct (Ascii.eqb_spec c x) as [->|_]; [contradiction|].
  cbn [andb]. now rewrite IH.
Qed.

(** A character that starts no occurrence is copied. *)
Lemma replaceFrom_miss (pat rep : jsstring) (x : ascii) (s : jsstring) :
  startsWith pat (x :: s) = false ->
  replaceFrom pat rep 0 (x :: s) = x :: replaceFrom pat rep 0 s.
Proof.
  intros H. cbn [replaceFrom]. now rewrite H.
Qed.

(* ================================================================== *)
(** * The replacements of [matchPattern], token by token *)
(* ================================================================== *)

Lemma tokenize_globstar (p : jsstring) :
  tokenize ("*"%char :: "*"%char :: p) = TGlobstar :: tokenize p.
Proof. reflexivity. Qed.

Lemma tokenize_star (p : jsstring) :
  startsWith (str "*") p = false ->
  tokenize ("*"%char :: p) = TStar :: tokenize p.
Proof.
  destruct p as [|c p]; [reflexivity|].
  cbn [str list_ascii_of_string startsWith tokenize]. rewrite andb_true_r.
  intros H. rewrite Ascii.eqb_sym in H. cbn [Ascii.eqb Bool.eqb]. now rewrite H.
Qed.

Lemma tokenize_question (p : jsstring) :
  tokenize ("?"%char :: p) = TQuestion :: tokenize p.
Proof. reflexivity. Qed.

Lemma tokenize_lit (c : ascii) (p : jsstring) :
  c <> "*"%char -> c <> "?"%char ->
  tokenize (c :: p) = TLit c :: tokenize p.
Proof.
  intros H1 H2. cbn [tokenize].
  destruct (Ascii.eqb_spec c "*"); [contradiction|].
  destruct (Ascii.eqb_spec c "?"); [contradiction|reflexivity].
Qed.

(** Induction along the cases of [tokenize]. *)
Lemma tokenize_cases (P : jsstring -> Prop) :
  P [] ->
  (forall p, P p -> P ("*"%char :: "*"%char :: p)) ->
  (forall p, startsWith (str "*") p = false -> P p -> P ("*"%char :: p)) ->
  (forall p, P p -> P ("?"%char :: p)) ->
  (forall c p, c <> "*"%char -> c <> "?"%char -> P p -> P (c :: p)) ->
  forall p, P p.
Proof.
  intros Hnil Hglob Hstar Hq Hlit.
  assert (Hone : forall c p, startsWith (str "*") p = false -> P p -> P (c :: p)).
  { intros c p Hp HP.
    destruct (Ascii.eqb_spec c "*") as [->|Hc1]; [now apply Hstar|].
    destruct (Ascii.eqb_spec c "?") as [->|Hc2]; [now apply Hq|].
    now apply Hlit. }
  assert (H : forall p, P p /\ forall c, P (c :: p)).
  { induction p as [|x p [IH1 IH2]].
    - split; [exact Hnil|]. intros c. now apply Hone.
    - split; [apply IH2|]. intros c.
      destruct (Ascii.eqb_spec x "*") as [->|Hx].
      + destruct (Ascii.eqb_spec c "*") as [->|Hc1]; [now apply Hglob|].
        destruct (Ascii.eqb_spec c "?") as [->|Hc2]; [apply Hq, IH2|].
        apply Hlit; auto.
      + apply Hone; [|apply IH2].
        cbn [str list_ascii_of_string startsWith]. rewrite andb_true_r.
        now apply Ascii.eqb_neq, not_eq_sym. }
  intros p. apply H.
Qed.

Lemma tokenize_head (p : jsstring) :
  startsWith (str "*") p = false ->
  match tokenize p with
  | TStar :: _ | TGlobstar :: _ => False
  | _ => True
  end.
Proof.
  destruct p as [|c p]; [easy|].
  cbn [str list_ascii_of_string startsWith tokenize]. rewrite andb_true_r.
  rewrite Ascii.eqb_sym. intros ->.
  destruct (Ascii.eqb c "?"); exact I.
Qed.

Lemma tokenize_wf (p : jsstring) : wfTokens (tokenize p).
Proof.
  induction p as [|p IH|p Hp IH|p IH|c p H1 H2 IH] using tokenize_cases.
  - exact I.
  - rewrite tokenize_globstar. now split.
  - rewrite tokenize_star by exact Hp. split; [|exact IH].
    apply tokenize_head in Hp. destruct (tokenize p) as [|[]]; auto.
  - rewrite tokenize_question. now split.
  - rewrite tokenize_lit by assumption. now split.
Qed.

Lemma isSpecial_not_wildcard (c : ascii) :
  isSpecial c = true -> c <> "*"%char /\ c <> "?"%char.
Proof.
  intros H. split; intros ->; discriminate H.
Qed.

(** Step 1: escaping leaves the wildcards as they are. *)
Lemma escapeSpecial_tokens (p : jsstring) :
  escapeSpecial p = flat_map (tokenSource (str "*") (str "?") (str "**")) (tokenize p).
Proof.
  unfold escapeSpecial.
  induction p as [|p IH|p Hp IH|p IH|c p H1 H2 IH] using tokenize_cases.
  - reflexivity.
  - rewrite tokenize_globstar. cbn [flat_map]. rewrite IH. reflexivity.
  - rewrite tokenize_star by exact Hp. cbn [flat_map]. rewrite IH. reflexivity.
  - rewrite tokenize_question. cbn [flat_map]. rewrite IH. reflexivity.
  - rewrite tokenize_lit by assumption. cbn [flat_map]. rewrite IH. reflexivity.
Qed.

Lemma literal_source_copy (x c : ascii) :
  c <> x -> "\"%char <> x ->
  Forall (fun y => y <> x) (if isSpecial c then ["\"%char; c] else [c]).
Proof.
  intros Hc Hb. destruct (isSpecial c); repeat constructor; assumption.
Qed.

Ltac chars_differ :=
  repeat constructor; intros Heq; discriminate Heq.

(** Step 2: every [**] becomes the placeholder. *)
Lemma replace_globstar (ts : list token) :
  wfTokens ts ->
  replaceAll (str "**") GLOBSTAR
    (flat_map (tokenSource (str "*") (str "?") (str "**")) ts)
  = flat_map (tokenSource (str "*") (str "?") GLOBSTAR) ts.
Proof.
  unfold replaceAll.
  induction ts as [|t ts IH]; [reflexivity|].
  intros [Ht Hts]. specialize (IH Hts). cbn [flat_map].
  destruct t as [c| | |]; cbn [tokenSource].
  - rewrite (@replaceFrom_copy "*"), IH; [reflexivity..|].
    apply literal_source_copy; [tauto|discriminate].
  - change (str "*" ++ ?r) with ("*"%char :: r).
    rewrite replaceFrom_miss, IH; [reflexivity|].
    change (startsWith (str "*")
              (flat_map (tokenSource (str "*") (str "?") (str "**")) ts) = false).
    destruct ts as [|[c| | |] ts]; try contradiction; try reflexivity.
    cbn [flat_map tokenSource].
    destruct Hts as [[Hc _] _].
    destruct (isSpecial c); [reflexivity|].
    cbn [str list_ascii_of_string startsWith app].
    rewrite andb_true_r. apply Ascii.eqb_neq. congruence.
  - rewrite (@replaceFrom_copy "*"), IH; [reflexivity..|chars_differ].
  - rewrite replaceFrom_hit, IH by discriminate. reflexivity.
Qed.

(** Steps 3 and 4: the wildcards of one character are replaced; the other
    texts do not contain them. *)
Lemma replace_star (ts : list token) :
  wfTokens ts ->
  replaceAll (str "*") (str "[^/]*")
    (flat_map (tokenSource (str "*") (str "?") GLOBSTAR) ts)
  = flat_map (tokenSource (str "[^/]*") (str "?") GLOBSTAR) ts.
Proof.
  unfold replaceAll.
  induction ts as [|t ts IH]; [reflexivity|].
  intros [Ht Hts]. specialize (IH Hts). cbn [flat_map].
  destruct t as [c| | |]; cbn [tokenSource].
  - rewrite (@replaceFrom_copy "*"), IH; [reflexivity..|].
    apply literal_source_copy; [tauto|discriminate].
  - rewrite replaceFrom_hit, IH by discriminate. reflexivity.
  - rewrite (@replaceFrom_copy "*"), IH; [reflexivity..|chars_differ].
  - rewrite (@replaceFrom_copy "*"), IH; [reflexivity..|chars_differ].
Qed.

Lemma replace_question (ts : list token) :
  wfTokens ts ->
  replaceAll (str "?") (str "[^/]")
    (flat_map (tokenSource (str "[^/]*") (str "?") GLOBSTAR) ts)
  = flat_map (tokenSource (str "[^/]*") (str "[^/]") GLOBSTAR) ts.
Proof.
  unfold replaceAll.
  induction ts as [|t ts IH]; [reflexivity|].
  intros [Ht Hts]. specialize (IH Hts). cbn [flat_map].
  destruct t as [c| | |]; cbn [tokenSource].
  - rewrite (@replaceFrom_copy "?"), IH; [reflexivity..|].
    apply literal_source_copy; [tauto|discriminate].
  - rewrite (@replaceFrom_copy "?"), IH; [reflexivity..|chars_differ].
  - rewrite replaceFrom_hit, IH by discriminate. reflexivity.
  - rewrite (@replaceFrom_copy "?"), IH; [reflexivity..|chars_differ].
Qed.

(** No text of a token continues a brace to the placeholder: an escaped
    brace is followed by a backslash, a class, or the two braces of a
    placeholder. *)
Lemma placeholder_tail_absent (ts : list token) :
  startsWith (str "{GLOBSTAR}}")
    (flat_map (tokenSource (str "[^/]*") (str "[^/]") GLOBSTAR) ts) = false.
Proof.
  destruct ts as [|[c| | |] ts]; try reflexivity.
  cbn [flat_map tokenSource].
  destruct (isSpecial c) eqn:Hc; [reflexivity|].
  cbn [str list_ascii_of_string startsWith app].
  destruct (Ascii.eqb_spec "{" c) as [<-|]; [discriminate Hc|reflexivity].
Qed.

(** Step 5: the placeholders, and nothing else, become [.*]. *)
Lemma replace_placeholder (ts : list token) :
  wfTokens ts ->
  replaceAll GLOBSTAR (str ".*")
    (flat_map (tokenSource (str "[^/]*") (str "[^/]") GLOBSTAR) ts)
  = flat_map (tokenSource (str "[^/]*") (str "[^/]") (str ".*")) ts.
Proof.
  unfold replaceAll.
  induction ts as [|t ts IH]; [reflexivity|].
  intros [Ht Hts]. specialize (IH Hts). cbn [flat_map].
  destruct t as [c| | |]; cbn [tokenSource].
  - destruct (Ascii.eqb_spec c "{") as [->|Hc].
    + change (isSpecial "{"%char) with true. cbv iota.
      change (["\"%char; "{"%char] ++ ?r) with (["\"%char] ++ "{"%char :: r).
      rewrite (@replaceFrom_copy "{") by (reflexivity || chars_differ).
      rewrite replaceFrom_miss, IH; [reflexivity|].
      change (startsWith (str "{GLOBSTAR}}")
                (flat_map (tokenSource (str "[^/]*") (str "[^/]") GLOBSTAR) ts) = false).
      apply placeholder_tail_absent.
    + rewrite (@replaceFrom_copy "{"), IH; [reflexivity..|].
      apply literal_source_copy; [assumption|discriminate].
  - rewrite (@replaceFrom_copy "{"), IH; [reflexivity..|chars_differ].
  - rewrite (@replaceFrom_copy "{"), IH; [reflexivity..|chars_differ].
  - rewrite replaceFrom_hit, IH by discriminate. reflexivity.
Qed.

(** The source of the regular expression, token by token. *)
Lemma regexSource_tokens (pattern : jsstring) :
  regexSource pattern
  = (if negb (startsWith (str "/") pattern) then str "(^|/)" else [])
    ++ flat_map (tokenSource (str "[^/]*") (str "[^/]") (str ".*")) (tokenize pattern)
    ++ str "$".
Proof.
  unfold regexSource.
  pose proof (tokenize_wf pattern) as Hwf.
  rewrite escapeSpecial_tokens, replace_globstar, replace_star, replace_question,
    replace_placeholder by exact Hwf.
  destruct (negb (startsWith (str "/") pattern)).
  - now rewrite <- app_assoc.
  - reflexivity.
Qed.

(* ================================================================== *)
(** * The constructor accepts every source [matchPattern] builds *)
(* ================================================================== *)

Lemma special_is_syntax (c : ascii) : isSpecial c = true -> isSyntaxChar c = true.
Proof.
  unfold isSpecial, specialChars. cbn [list_ascii_of_string existsb].
  intros H.
  repeat (apply orb_true_iff in H as [H|H];
          [apply Ascii.eqb_eq in H; subst c; reflexivity|]).
  discriminate H.
Qed.

(** A character that [matchPattern] leaves unescaped, other than the
    wildcards, is a pattern character. *)
Lemma step_ordinary (c : ascii) (f : frame) (stk : list frame) :
  isSpecial c = false -> c <> "*"%char -> c <> "?"%char ->
  step (mkState MNormal f stk) c
  = Some (pushTerm true (RChar c) (mkState MNormal f stk)).
Proof.
  intros Hs H1 H2. unfold step. cbn [st_mode].
  repeat match goal with
         | |- context [Ascii.eqb c ?x] =>
             destruct (Ascii.eqb_spec c x) as [->|?];
             [first [discriminate Hs | contradiction]|]
         end.
  reflexivity.
Qed.

(** The text of one token is read as one term. *)
Lemma parse_token (t : token) (a ts : list regex) (q : bool) (stk : list frame)
    (rest : jsstring) :
  wfTokens [t] ->
  exists q',
    parse (mkState MNormal (mkFrame a ts q) stk)
      (tokenSource (str "[^/]*") (str "[^/]") (str ".*") t ++ rest)
    = parse (mkState MNormal (mkFrame a (tokenRegex t :: ts) q') stk) rest.
Proof.
  intros [Ht _]. destruct t as [c| | |]; cbn [tokenSource tokenRegex].
  - exists true. destruct (isSpecial c) eqn:Hc.
    + cbn [app parse]. change (step (mkState MNormal (mkFrame a ts q) stk) "\")
        with (Some (mkState MEscape (mkFrame a ts q) stk)).
      cbv iota. unfold step at 1. cbn [st_mode].
      now rewrite (special_is_syntax _ Hc).
    + cbn [app parse]. rewrite step_ordinary by tauto. reflexivity.
  - exists false. reflexivity.
  - exists true. reflexivity.
  - exists false. reflexivity.
Qed.

Lemma parse_tokens (toks : list token) (a ts : list regex) (q : bool)
    (stk : list frame) (rest : jsstring) :
  wfTokens toks ->
  exists q',
    parse (mkState MNormal (mkFrame a ts q) stk)
      (flat_map (tokenSource (str "[^/]*") (str "[^/]") (str ".*")) toks ++ rest)
    = parse (mkState MNormal (mkFrame a (rev (map tokenRegex toks) ++ ts) q') stk) rest.
Proof.
  revert ts q. induction toks as [|t toks IH]; intros ts q Hwf.
  - now exists q.
  - destruct Hwf as [Ht Hts]. cbn [flat_map map rev]. rewrite <- !app_assoc.
    destruct (@parse_token t a ts q stk
                (flat_map (tokenSource (str "[^/]*") (str "[^/]") (str ".*")) toks ++ rest))
      as [q1 ->]; [destruct t; cbn in Ht |- *; tauto|].
    destruct (IH (tokenRegex t :: ts) q1 Hts) as [q2 ->].
    now exists q2.
Qed.

(** [new RegExp(regexStr)] does not throw, and gives [globRegex]. *)
Lemma RegExp_regexSource (pattern : jsstring) :
  RegExp (regexSource pattern) = Some (globRegex pattern).
Proof.
  rewrite regexSource_tokens. unfold RegExp, globRegex.
  pose proof (tokenize_wf pattern) as Hwf.
  destruct (negb (startsWith (str "/") pattern)).
  - change (parse initState (str "(^|/)" ++ ?r))
      with (parse (mkState MNormal (mkFrame [] [anchorGroup] true) []) r).
    destruct (parse_tokens _ [] [anchorGroup] true [] (str "$") Hwf) as [q ->].
    cbn [str list_ascii_of_string parse]. unfold finish, closeFrame. cbn.
    rewrite rev_app_distr, rev_involutive. reflexivity.
  - cbn [app]. unfold initState, emptyFrame.
    destruct (parse_tokens _ [] [] false [] (str "$") Hwf) as [q ->].
    cbn [str list_ascii_of_string parse]. unfold finish, closeFrame. cbn.
    rewrite app_nil_r, rev_involutive. reflexivity.
Qed.

(** [matchPattern] on strings: the answer of [globRegex]. *)
Lemma matchPattern_glob (filePath pattern : jsstring) :
  matchPattern filePath (JString pattern) = Ok (test (globRegex pattern) filePath).
Proof.
  unfold matchPattern. now rewrite RegExp_regexSource.
Qed.

(* ================================================================== *)
(** * Matching *)
(* ================================================================== *)

Lemma starLoop_ext (m1 : (nat -> jsstring -> bool) -> nat -> jsstring -> bool)
    (k1 k2 : nat -> jsstring -> bool) :
  (forall c1 c2, (forall i s, c1 i s = c2 i s) -> forall i s, m1 c1 i s = m1 c2 i s) ->
  (forall i s, k1 i s = k2 i s) ->
  forall fuel i s, starLoop m1 k1 fuel i s = starLoop m1 k2 fuel i s.
Proof.
  intros Hm Hk. induction fuel as [|fuel IH]; intros i s; cbn [starLoop].
  - apply Hk.
  - rewrite (Hk i s). f_equal. apply Hm. intros i' s'. now rewrite IH.
Qed.

(** The matcher only applies its continuation. *)
Lemma rmatch_ext (r : regex) (k1 k2 : nat -> jsstring -> bool) :
  (forall i s, k1 i s = k2 i s) ->
  forall i s, rmatch r k1 i s = rmatch r k2 i s.
Proof.
  revert k1 k2.
  induction r as [|c| |neg cs| | |r1 IH1 r2 IH2|r1 IH1 r2 IH2|r1 IH1];
    intros k1 k2 Hk i s; cbn [rmatch].
  - apply Hk.
  - destruct s; cbn [oneChar]; [reflexivity|now rewrite Hk].
  - destruct s; cbn [oneChar]; [reflexivity|now rewrite Hk].
  - destruct s; cbn [oneChar]; [reflexivity|now rewrite Hk].
  - now rewrite Hk.
  - destruct s; [apply Hk|reflexivity].
  - apply IH1. intros i' s'. now apply IH2.
  - now rewrite (IH1 k1 k2 Hk), (IH2 k1 k2 Hk).
  - apply starLoop_ext; [|exact Hk]. intros c1 c2 Hc. now apply IH1.
Qed.

Lemma rmatch_seqOf_app (rs1 rs2 : list regex) (k : nat -> jsstring -> bool)
    (i : nat) (s : jsstring) :
  rmatch (seqOf (rs1 ++ rs2)) k i s = rmatch (seqOf rs1) (rmatch (seqOf rs2) k) i s.
Proof.
  revert i s. induction rs1 as [|r rs1 IH]; intros i s; [reflexivity|].
  cbn [app seqOf rmatch]. apply rmatch_ext. exact IH.
Qed.

(** [r*] for a one-character [r] takes characters one by one. *)
Lemma starLoop_chars (p : ascii -> bool) (k : nat -> jsstring -> bool) :
  forall fuel i s, length s <= fuel ->
    starLoop (oneChar p) k fuel i s = starChars p k i s.
Proof.
  induction fuel as [|fuel IH]; intros i s Hlen.
  - destruct s; [reflexivity|simpl in Hlen; lia].
  - cbn [starLoop]. destruct s as [|c s]; [reflexivity|].
    cbn [oneChar starChars]. simpl in Hlen.
    rewrite IH by lia.
    replace (length s <? length (c :: s)) with true; [reflexivity|].
    symmetry. apply Nat.ltb_lt. simpl. lia.
Qed.

Lemma rmatch_star_any (k : nat -> jsstring -> bool) (i : nat) (s : jsstring) :
  rmatch (RStar RAny) k i s = starChars (fun x => negb (isLineTerminator x)) k i s.
Proof.
  cbn [rmatch].
  change (starLoop (oneChar (fun x => negb (isLineTerminator x))) k (length s) i s = 
          starChars (fun x => negb (isLineTerminator x)) k i s).
  now apply starLoop_chars.
Qed.

Lemma rmatch_star_class (neg : bool) (cs : list ascii) (k : nat -> jsstring -> bool)
    (i : nat) (s : jsstring) :
  rmatch (RStar (RClass neg cs)) k i s
  = starChars (fun x => xorb neg (existsb (Ascii.eqb x) cs)) k i s.
Proof.
  cbn [rmatch].
  change (starLoop (oneChar (fun x => xorb neg (existsb (Ascii.eqb x) cs))) k (length s) i s
          = starChars (fun x => xorb neg (existsb (Ascii.eqb x) cs)) k i s).
  now apply starLoop_chars.
Qed.

Lemma rmatch_seq (r1 r2 : regex) (k : nat -> jsstring -> bool) (i : nat) (s : jsstring) :
  rmatch (RSeq r1 r2) k i s = rmatch r1 (rmatch r2 k) i s.
Proof. reflexivity. Qed.

Lemma rmatch_char (c : ascii) (k : nat -> jsstring -> bool) (i : nat) (s : jsstring) :
  rmatch (RChar c) k i (c :: s) = k (S i) s.
Proof. cbn [rmatch oneChar]. now rewrite Ascii.eqb_refl. Qed.

(** [r*] can take any run of characters with the property. *)
Lemma starChars_run (p : ascii -> bool) (k : nat -> jsstring -> bool)
    (x s : jsstring) (i : nat) :
  Forall (fun c => p c = true) x ->
  k (i + length x) s = true ->
  starChars p k i (x ++ s) = true.
Proof.
  intros Hx. revert i. induction Hx as [|c x Hc _ IH]; intros i Hk.
  - cbn [app length] in *. rewrite Nat.add_0_r in Hk.
    destruct s; cbn [starChars]; [exact Hk|]. rewrite Hk. apply orb_true_r.
  - cbn [app starChars]. rewrite Hc, IH; [reflexivity|].
    cbn [length] in Hk. now rewrite Nat.add_succ_r in Hk.
Qed.

(** The tokens of a pattern match the pattern itself. *)
Lemma tokens_match_self (a : jsstring) (rest : list regex)
    (k : nat -> jsstring -> bool) (s : jsstring) :
  forall i,
    rmatch (seqOf rest) k (i + length a) s = true ->
    rmatch (seqOf (map tokenRegex (tokenize a) ++ rest)) k i (a ++ s) = true.
Proof.
  induction a as [|p IH|p Hp IH|p IH|c p H1 H2 IH] using tokenize_cases; intros i Hk.
  - cbn [length] in Hk. now rewrite Nat.add_0_r in Hk.
  - rewrite tokenize_globstar. cbn [map app seqOf tokenRegex].
    change (rmatch (RSeq ?r1 ?r2) k i ?t) with (rmatch r1 (rmatch r2 k) i t).
    rewrite rmatch_star_any.
    apply (@starChars_run _ _ (str "**") (p ++ s)); [repeat constructor|].
    apply IH. cbn [length str list_ascii_of_string] in *.
    now replace (i + 2 + length p) with (i + S (S (length p))) by lia.
  - rewrite tokenize_star by exact Hp. cbn [map app seqOf tokenRegex].
    change (rmatch (RSeq ?r1 ?r2) k i ?t) with (rmatch r1 (rmatch r2 k) i t).
    rewrite rmatch_star_class.
    apply (@starChars_run _ _ (str "*") (p ++ s)); [repeat constructor|].
    apply IH. cbn [length str list_ascii_of_string] in *.
    now replace (i + 1 + length p) with (i + S (length p)) by lia.
  - rewrite tokenize_question. cbn [map app seqOf tokenRegex rmatch oneChar].
    cbn [existsb xorb Ascii.eqb Bool.eqb orb negb andb].
    apply IH. cbn [length] in Hk. now rewrite Nat.add_succ_r in Hk.
  - rewrite tokenize_lit by assumption. cbn [map app seqOf tokenRegex rmatch oneChar].
    rewrite Ascii.eqb_refl. cbn [andb].
    apply IH. cbn [length] in Hk. now rewrite Nat.add_succ_r in Hk.
Qed.

(** A text behind which no [*] follows is tokenized on its own. *)
Lemma tokenize_app (a r : jsstring) :
  startsWith (str "*") r = false ->
  tokenize (a ++ r) = tokenize a ++ tokenize r.
Proof.
  intros Hr.
  induction a as [|p IH|p Hp IH|p IH|c p H1 H2 IH] using tokenize_cases.
  - reflexivity.
  - cbn [app]. rewrite !tokenize_globstar, IH. reflexivity.
  - cbn [app]. rewrite !tokenize_star, IH; [reflexivity|exact Hp|].
    destruct p; [exact Hr|exact Hp].
  - cbn [app]. rewrite !tokenize_question, IH. reflexivity.
  - cbn [app]. rewrite !tokenize_lit, IH by assumption. reflexivity.
Qed.

(** A match from the first index is enough for [test]. *)
Lemma test_at_start (pattern s : jsstring) :
  rmatch (seqOf (map tokenRegex (tokenize pattern) ++ [REol])) accept 0 s = true ->
  test (globRegex pattern) s = true.
Proof.
  intros H. unfold test, globRegex.
  assert (Hm : rmatch (seqOf ((if negb (startsWith (str "/") pattern)
                               then [anchorGroup] else [])
                              ++ map tokenRegex (tokenize pattern) ++ [REol]))
                 accept 0 s = true).
  { destruct (negb (startsWith (str "/") pattern)); [|exact H].
    cbn [app seqOf]. cbn [rmatch anchorGroup Nat.eqb andb].
    fold accept. rewrite H. reflexivity. }
  destruct s; cbn [searchFrom]; fold accept; now rewrite Hm.
Qed.

(** ** Path separators are never matched by less than a separator *)

Lemma slashes_cons (c : ascii) (s : jsstring) :
  slashes (c :: s) = (if Ascii.eqb c "/" then 1 else 0) + slashes s.
Proof.
  unfold slashes. cbn [count_occ].
  destruct (ascii_dec c "/") as [->|Hc]; [reflexivity|].
  apply Ascii.eqb_neq in Hc. now rewrite Hc.
Qed.

Lemma slashes_app (a b : jsstring) : slashes (a ++ b) = slashes a + slashes b.
Proof. apply count_occ_app. Qed.

Lemma oneChar_inv (p : ascii -> bool) (k : nat -> jsstring -> bool)
    (i : nat) (s : jsstring) :
  oneChar p k i s = true ->
  exists c s', s = c :: s' /\ p c = true /\ k (S i) s' = true.
Proof.
  destruct s as [|c s']; [discriminate|]. cbn [oneChar].
  intros H. apply andb_true_iff in H. now exists c, s'.
Qed.

Lemma starLoop_slashes (m1 : (nat -> jsstring -> bool) -> nat -> jsstring -> bool)
    (k : nat -> jsstring -> bool) :
  (forall c i s, m1 c i s = true ->
     exists i' s', c i' s' = true /\ slashes s' <= slashes s) ->
  forall fuel i s, starLoop m1 k fuel i s = true ->
    exists i' s', k i' s' = true /\ slashes s' <= slashes s.
Proof.
  intros Hm. induction fuel as [|fuel IH]; intros i s H; cbn [starLoop] in H.
  - now exists i, s.
  - apply orb_true_iff in H as [H|H]; [|now exists i, s].
    apply Hm in H as (i1 & s1 & H1 & Hle1).
    apply andb_true_iff in H1 as [_ H1].
    apply IH in H1 as (i2 & s2 & H2 & Hle2).
    exists i2, s2. split; [exact H2|lia].
Qed.

(** Whatever [r] matches holds at least [minSlashes r] separators. *)
Lemma rmatch_slashes (r : regex) :
  forall k i s, rmatch r k i s = true ->
    exists i' s', k i' s' = true /\ minSlashes r + slashes s' <= slashes s.
Proof.
  induction r as [|c| |neg cs| | |r1 IH1 r2 IH2|r1 IH1 r2 IH2|r1 IH1];
    intros k i s H; cbn [rmatch minSlashes] in *.
  - now exists i, s.
  - apply oneChar_inv in H as (x & s' & -> & Hx & Hk).
    apply Ascii.eqb_eq in Hx. subst x.
    exists (S i), s'. split; [exact Hk|]. rewrite slashes_cons. lia.
  - apply oneChar_inv in H as (x & s' & -> & _ & Hk).
    exists (S i), s'. split; [exact Hk|]. rewrite slashes_cons. lia.
  - apply oneChar_inv in H as (x & s' & -> & _ & Hk).
    exists (S i), s'. split; [exact Hk|]. rewrite slashes_cons. lia.
  - apply andb_true_iff in H as [_ H]. now exists i, s.
  - destruct s; [now exists i, []|discriminate].
  - apply IH1 in H as (i1 & s1 & H1 & Hle1).
    apply IH2 in H1 as (i2 & s2 & H2 & Hle2).
    exists i2, s2. split; [exact H2|lia].
  - apply orb_true_iff in H as [H|H].
    + apply IH1 in H as (i1 & s1 & H1 & Hle1). exists i1, s1. split; [exact H1|lia].
    + apply IH2 in H as (i1 & s1 & H1 & Hle1). exists i1, s1. split; [exact H1|lia].
  - apply starLoop_slashes in H; [exact H|].
    intros c i0 s0 Hc. apply IH1 in Hc as (i1 & s1 & H1 & Hle1).
    exists i1, s1. split; [exact H1|lia].
Qed.

Lemma searchFrom_slashes (r : regex) (s : jsstring) :
  forall i, searchFrom r i s = true -> minSlashes r <= slashes s.
Proof.
  induction s as [|c s IH]; intros i H; cbn [searchFrom] in H;
    apply orb_true_iff in H as [H|H].
  - apply rmatch_slashes in H as (_ & s' & _ & Hle). lia.
  - discriminate.
  - apply rmatch_slashes in H as (_ & s' & _ & Hle). lia.
  - apply IH in H. rewrite slashes_cons. lia.
Qed.

Lemma minSlashes_seqOf_app (rs1 rs2 : list regex) :
  minSlashes (seqOf (rs1 ++ rs2)) = minSlashes (seqOf rs1) + minSlashes (seqOf rs2).
Proof.
  induction rs1 as [|r rs1 IH]; [reflexivity|].
  cbn [app seqOf minSlashes]. rewrite IH. lia.
Qed.

Lemma minSlashes_tokens (p : jsstring) :
  minSlashes (seqOf (map tokenRegex (tokenize p))) = slashes p.
Proof.
  induction p as [|p IH|p Hp IH|p IH|c p H1 H2 IH] using tokenize_cases.
  - reflexivity.
  - rewrite tokenize_globstar, !slashes_cons. cbn [map seqOf tokenRegex minSlashes].
    rewrite IH. reflexivity.
  - rewrite tokenize_star, slashes_cons by exact Hp.
    cbn [map seqOf tokenRegex minSlashes]. rewrite IH. reflexivity.
  - rewrite tokenize_question, slashes_cons. cbn [map seqOf tokenRegex minSlashes].
    rewrite IH. reflexivity.
  - rewrite tokenize_lit, slashes_cons by assumption.
    cbn [map seqOf tokenRegex minSlashes]. rewrite IH. reflexivity.
Qed.

Lemma minSlashes_globRegex (p : jsstring) : minSlashes (globRegex p) = slashes p.
Proof.
  unfold globRegex. rewrite !minSlashes_seqOf_app, minSlashes_tokens.
  destruct (negb (startsWith (str "/") p)); cbn; lia.
Qed.

(** A matched path has at least as many separators as the pattern. *)
Lemma matchPattern_slashes (filePath pattern : jsstring) :
  matchPattern filePath (JString pattern) = Ok true ->
  slashes pattern <= slashes filePath.
Proof.
  rewrite matchPattern_glob. intros H. injection H as H.
  apply searchFrom_slashes in H. now rewrite minSlashes_globRegex in H.
Qed.

(** ** Patterns without wildcards *)

Lemma tokenize_literal (p : jsstring) : literal p -> tokenize p = map TLit p.
Proof.
  induction 1 as [|c p [H1 H2] _ IH]; [reflexivity|].
  rewrite tokenize_lit by assumption. cbn [map]. now rewrite IH.
Qed.

Lemma rmatch_chars (p : jsstring) (k : nat -> jsstring -> bool) :
  forall i s,
    rmatch (seqOf (map RChar p ++ [REol])) k i s = eqs s p && k (i + length p) [].
Proof.
  induction p as [|c p IH]; intros i s.
  - cbn [map app seqOf rmatch length]. rewrite Nat.add_0_r.
    destruct s; reflexivity.
  - cbn [map app seqOf rmatch length].
    destruct s as [|x s]; [reflexivity|].
    cbn [oneChar eqs]. rewrite IH, Ascii.eqb_sym, Nat.add_succ_r, andb_assoc.
    reflexivity.
Qed.

Lemma literal_regex (p : jsstring) :
  literal p ->
  map tokenRegex (tokenize p) = map RChar p.
Proof.
  intros H. rewrite (tokenize_literal _ H), map_map. reflexivity.
Qed.

(** Without the anchor group: the pattern is a suffix of the path. *)
Lemma searchFrom_suffix (p s : jsstring) :
  forall i,
    searchFrom (seqOf (map RChar p ++ [REol])) i s = true <-> exists x, s = x ++ p.
Proof.
  induction s as [|c s IH]; intros i; cbn [searchFrom]; rewrite rmatch_chars.
  - rewrite orb_false_r, andb_true_r, eqs_eq. split.
    + intros <-. now exists [].
    + intros [x Hx]. symmetry in Hx. apply app_eq_nil in Hx. symmetry. tauto.
  - rewrite andb_true_r, orb_true_iff, eqs_eq, IH. split.
    + intros [<-|[x ->]]; [now exists []|now exists (c :: x)].
    + intros [[|y x] Hx]; [left; exact Hx|].
      injection Hx as -> ->. right. now exists x.
Qed.

(** With the anchor group: the pattern is the path, or follows a
    separator. *)
Lemma searchFrom_anchored (p s : jsstring) :
  forall i,
    searchFrom (seqOf ([anchorGroup] ++ map RChar p ++ [REol])) i s = true
    <-> (i = 0 /\ s = p) \/ exists x, s = x ++ str "/" ++ p.
Proof.
  assert (Hm : forall i s,
             rmatch (seqOf ([anchorGroup] ++ map RChar p ++ [REol])) accept i s
             = ((i =? 0) && eqs s p)
               || match s with
                  | [] => false
                  | c :: s' => Ascii.eqb "/" c && eqs s' p
                  end).
  { clear s. intros i s. cbn [app seqOf]. cbn [rmatch anchorGroup].
    rewrite rmatch_chars. unfold accept. rewrite andb_true_r.
    destruct s as [|c s']; [reflexivity|].
    cbn [oneChar]. rewrite rmatch_chars. now rewrite andb_true_r. }
  induction s as [|c s IH]; intros i; cbn [searchFrom]; fold accept; rewrite Hm.
  - rewrite !orb_false_r, andb_true_iff, Nat.eqb_eq, eqs_eq. split.
    + intros H. now left.
    + intros [H|[x Hx]]; [exact H|].
      symmetry in Hx. apply app_eq_nil in Hx as [_ Hx]. discriminate Hx.
  - rewrite !orb_true_iff, !andb_true_iff, Nat.eqb_eq, !eqs_eq, Ascii.eqb_eq, IH.
    split.
    + intros [[H|[<- <-]]|[[H _]|[x ->]]].
      * now left.
      * right. now exists [].
      * discriminate H.
      * right. now exists (c :: x).
    + intros [H|[[|y x] Hx]].
      * left. now left.
      * injection Hx as -> ->. left. right. now split.
      * injection Hx as -> ->. right. right. now exists x.
Qed.

(** A pattern without wildcards matches only its own text: at the end of
    the path, and, unless it begins with a separator, from the start of
    the path or behind a separator. *)
Lemma matchPattern_literal (filePath pattern : jsstring) :
  literal pattern ->
  matchPattern filePath (JString pattern) = Ok true
  <-> if startsWith (str "/") pattern
      then exists x, filePath = x ++ pattern
      else filePath = pattern \/ exists x, filePath = x ++ str "/" ++ pattern.
Proof.
  intros Hlit. rewrite matchPattern_glob. unfold test, globRegex.
  rewrite (literal_regex _ Hlit).
  destruct (startsWith (str "/") pattern); cbn [negb].
  - rewrite <- (searchFrom_suffix pattern filePath 0). cbn [app].
    split; [now intros [= ->]|now intros ->].
  - split.
    + intros [= H]. apply searchFrom_anchored in H. tauto.
    + intros H. f_equal. apply searchFrom_anchored. tauto.
Qed.

(* ================================================================== *)
(** * The score table *)
(* ================================================================== *)

Lemma mapSet_keys (m : scoreMap) (key : jsstring) (v : Z) :
  keys (mapSet m key v) = if in_dec jsstring_dec key (keys m)
                          then keys m else keys m ++ [key].
Proof.
  induction m as [|[k v'] m IH]; [reflexivity|].
  cbn [mapSet keys map fst]. fold (keys m).
  destruct (eqs k key) eqn:Hk.
  - apply eqs_eq in Hk. subst k. cbn [keys map fst].
    destruct (in_dec jsstring_dec key (key :: keys m)) as [_|Hn]; [reflexivity|].
    exfalso. apply Hn. now left.
  - apply eqs_neq in Hk. cbn [map fst]. fold (keys (mapSet m key v)). rewrite IH.
    destruct (in_dec jsstring_dec key (keys m)) as [Hi|Hn];
      destruct (in_dec jsstring_dec key (k :: keys m)) as [Hi'|Hn']; try reflexivity.
    + exfalso. apply Hn'. now right.
    + destruct Hi' as [Heq|Hi']; [congruence|contradiction].
Qed.

Lemma mapSet_In (m : scoreMap) (key : jsstring) (v : Z) (x : jsstring) :
  In x (keys (mapSet m key v)) <-> In x (keys m) \/ x = key.
Proof.
  rewrite mapSet_keys. destruct (in_dec jsstring_dec key (keys m)) as [Hi|Hn].
  - split; [tauto|]. intros [H| ->]; assumption.
  - rewrite in_app_iff. cbn [In]. split; intros [H|H]; auto.
    destruct H as [<-|[]]. now right.
Qed.

Lemma mapSet_NoDup (m : scoreMap) (key : jsstring) (v : Z) :
  NoDup (keys m) -> NoDup (keys (mapSet m key v)).
Proof.
  intros H. rewrite mapSet_keys. destruct (in_dec jsstring_dec key (keys m)) as [Hi|Hn].
  - exact H.
  - apply NoDup_app; [exact H|repeat constructor; intros []|].
    intros x Hx [<-|[]]. contradiction.
Qed.

Lemma mapGet_mapSet (m : scoreMap) (key : jsstring) (v : Z) :
  mapGet (mapSet m key v) key = Some v.
Proof.
  induction m as [|[k v'] m IH]; cbn [mapSet mapGet].
  - now rewrite eqs_refl.
  - destruct (eqs k key) eqn:Hk; cbn [mapGet]; rewrite Hk; [reflexivity|exact IH].
Qed.

(** What [addReviewers] leaves in the table. *)
Lemma addReviewers_keys (revs : list jsval) (prAuthor : jsstring) :
  forall scores scores',
    addReviewers revs prAuthor scores = Ok scores' ->
    (NoDup (keys scores) -> NoDup (keys scores'))
    /\ (forall x, In x (keys scores') <->
          In x (keys scores) \/ (In (JString x) revs /\ notAuthor prAuthor x)).
Proof.
  induction revs as [|rv revs IH]; intros scores scores' H; cbn [addReviewers] in H.
  - injection H as <-. split; [auto|]. intros x. cbn [In]. tauto.
  - destruct rv as [| | | |name|]; try discriminate H.
    destruct (eqs (toLowerCase name) (toLowerCase prAuthor)) eqn:He.
    + apply eqs_eq in He. apply IH in H as [Hnd Hin]. split; [exact Hnd|].
      intros x. rewrite Hin. cbn [In]. split; [tauto|].
      intros [Hx|[[Hx|Hx] Hna]]; auto.
      injection Hx as ->. contradiction.
    + apply eqs_neq in He. apply IH in H as [Hnd Hin]. split.
      * intros Hs. now apply Hnd, mapSet_NoDup.
      * intros x. rewrite Hin, mapSet_In. cbn [In]. split.
        -- intros [[Hx| ->]|Hx]; auto. tauto.
        -- intros [Hx|[[Hx|Hx] Hna]]; auto.
           injection Hx as ->. auto.
Qed.

(** What one rule leaves in the table. *)
Lemma scoreRule_keys (changedFiles : list jsstring) (prAuthor : jsstring)
    (scores scores' : scoreMap) (r : rule) :
  scoreRule changedFiles prAuthor scores r = Ok scores' ->
  exists matched,
    ruleMatched changedFiles r = Ok matched
    /\ (NoDup (keys scores) -> NoDup (keys scores'))
    /\ (forall x, In x (keys scores') <->
          In x (keys scores)
          \/ (matched = true /\ In (JString x) (asArray (users r))
              /\ notAuthor prAuthor x)).
Proof.
  unfold scoreRule, ruleMatched.
  destruct (matchAnyFile changedFiles (asArray (patterns r))) as [matched|e];
    cbn [bind]; [|discriminate].
  intros H. exists matched. split; [reflexivity|].
  destruct matched.
  - apply addReviewers_keys in H as [Hnd Hin]. split; [exact Hnd|].
    intros x. rewrite Hin. tauto.
  - injection H as <-. split; [auto|]. intros x. split; [tauto|].
    intros [Hx|[Hx _]]; [exact Hx|discriminate].
Qed.

(** What the rules leave in the table. *)
Lemma scoreRules_keys (changedFiles : list jsstring) (prAuthor : jsstring)
    (rules : list rule) :
  forall scores scores',
    scoreRules changedFiles prAuthor rules scores = Ok scores' ->
    (NoDup (keys scores) -> NoDup (keys scores'))
    /\ (forall x, In x (keys scores') <->
          In x (keys scores)
          \/ exists r, In r rules /\ ruleMatched changedFiles r = Ok true
                       /\ In (JString x) (asArray (users r))
                       /\ notAuthor prAuthor x).
Proof.
  induction rules as [|r rules IH]; intros scores scores' H; cbn [scoreRules] in H.
  - injection H as <-. split; [auto|]. intros x. split; [tauto|].
    intros [Hx|(r & [] & _)]. exact Hx.
  - destruct (scoreRule changedFiles prAuthor scores r) as [scores1|e] eqn:H1;
      cbn [bind] in H; [|discriminate].
    apply scoreRule_keys in H1 as (matched & Hm & Hnd1 & Hin1).
    apply IH in H as [Hnd Hin]. split; [auto|].
    intros x. rewrite Hin, Hin1. split.
    + intros [[Hx|(-> & Hu & Hna)]|(r' & Hr' & Hrest)].
      * now left.
      * right. exists r. cbn [In]. auto.
      * right. exists r'. cbn [In]. auto.
    + intros [Hx|(r' & [<-|Hr'] & Hm' & Hu & Hna)].
      * auto.
      * left. right. rewrite Hm in Hm'. injection Hm' as ->. auto.
      * right. exists r'. auto.
Qed.

Lemma scoreRules_app (changedFiles : list jsstring) (prAuthor : jsstring)
    (rs1 rs2 : list rule) :
  forall scores,
    scoreRules changedFiles prAuthor (rs1 ++ rs2) scores
    = (scores1 <- scoreRules changedFiles prAuthor rs1 scores ;;
       scoreRules changedFiles prAuthor rs2 scores1).
Proof.
  induction rs1 as [|r rs1 IH]; intros scores; [reflexivity|].
  cbn [app scoreRules].
  destruct (scoreRule changedFiles prAuthor scores r); cbn [bind]; [apply IH|reflexivity].
Qed.

(* ================================================================== *)
(** * Sorting, truncation and the defaults *)
(* ================================================================== *)

Lemma insertEntry_perm (e : jsstring * Z) (l : list (jsstring * Z)) :
  Permutation (insertEntry e l) (e :: l).
Proof.
  induction l as [|e' l IH]; cbn [insertEntry]; [reflexivity|].
  destruct (snd e' - snd e <=? 0)%Z; [reflexivity|].
  rewrite IH. apply perm_swap.
Qed.

Lemma sortByScore_perm (l : list (jsstring * Z)) : Permutation (sortByScore l) l.
Proof.
  induction l as [|e l IH]; cbn [sortByScore]; [reflexivity|].
  rewrite insertEntry_perm. now constructor.
Qed.

Lemma slice0_firstn (A : Type) (l : list A) (end_ : jsint) :
  exists n, slice0 l end_ = firstn n l.
Proof. unfold slice0. eauto. Qed.

Lemma slice0_In (A : Type) (l : list A) (end_ : jsint) (x : A) :
  In x (slice0 l end_) -> In x l.
Proof.
  destruct (slice0_firstn A l end_) as [n ->].
  rewrite <- (firstn_skipn n l) at 2. rewrite in_app_iff. auto.
Qed.

Lemma slice0_NoDup (A : Type) (l : list A) (end_ : jsint) :
  NoDup l -> NoDup (slice0 l end_).
Proof.
  destruct (slice0_firstn A l end_) as [n ->].
  intros H. rewrite <- (firstn_skipn n l) in H.
  now apply NoDup_app_remove_r in H.
Qed.

Lemma slice0_nil (A : Type) (end_ : jsint) : slice0 (@nil A) end_ = [].
Proof. unfold slice0. now rewrite firstn_nil. Qed.

Lemma slice0_length_nonneg (A : Type) (l : list A) (z : Z) :
  (0 <= z)%Z -> (Z.of_nat (length (slice0 l (Int z))) <= z)%Z.
Proof.
  intros Hz. unfold slice0.
  destruct (Z.ltb_spec z 0); [lia|].
  rewrite length_firstn. lia.
Qed.

Lemma slice0_zero (A : Type) (l : list A) (end_ : jsint) :
  end_ = NaN \/ end_ = Int 0 -> slice0 l end_ = [].
Proof.
  intros [-> | ->]; unfold slice0; cbn [Z.ltb Z.compare];
    (replace (Z.to_nat (Z.min 0 (Z.of_nat (length l)))) with 0 by lia);
    reflexivity.
Qed.

Lemma slice0_negative (A : Type) (l : list A) (z : Z) :
  (z < 0)%Z -> slice0 l (Int z) = firstn (length l - Z.to_nat (- z)) l.
Proof.
  intros Hz. unfold slice0.
  destruct (Z.ltb_spec z 0); [|lia].
  f_equal. lia.
Qed.

(** What the filter over the defaults keeps. *)
Lemma filterNotAuthor_In (elems : list jsval) (prAuthor : jsstring) :
  forall l, filterNotAuthor elems prAuthor = Ok l ->
    forall x, In x l <-> In (JString x) elems /\ notAuthor prAuthor x.
Proof.
  induction elems as [|v elems IH]; intros l H; cbn [filterNotAuthor] in H.
  - injection H as <-. cbn [In]. tauto.
  - destruct v as [| | | |r|]; try discriminate H.
    destruct (filterNotAuthor elems prAuthor) as [rest|e]; cbn [bind] in H;
      [|discriminate].
    specialize (IH rest eq_refl).
    destruct (eqs (toLowerCase r) (toLowerCase prAuthor)) eqn:He; cbn [negb] in H;
      injection H as <-; intros x; cbn [In].
    + apply eqs_eq in He. rewrite IH. split; [tauto|].
      intros [[Hx|Hx] Hna]; [|tauto]. injection Hx as ->. contradiction.
    + apply eqs_neq in He. rewrite IH. split.
      * intros [->|Hx]; [auto|tauto].
      * intros [[Hx|Hx] Hna]; [|tauto]. injection Hx as ->. now left.
Qed.

Lemma filterNotAuthor_NoDup (elems : list jsval) (prAuthor : jsstring) :
  forall l, filterNotAuthor elems prAuthor = Ok l -> NoDup elems -> NoDup l.
Proof.
  induction elems as [|v elems IH]; intros l H Hnd; cbn [filterNotAuthor] in H.
  - injection H as <-. constructor.
  - destruct v as [| | | |r|]; try discriminate H.
    destruct (filterNotAuthor elems prAuthor) as [rest|e] eqn:Hrest; cbn [bind] in H;
      [|discriminate].
    inversion Hnd as [|? ? Hnotin Hnd']; subst.
    specialize (IH rest eq_refl Hnd').
    destruct (negb (eqs (toLowerCase r) (toLowerCase prAuthor)));
      injection H as <-; [|exact IH].
    constructor; [|exact IH].
    intros Hr. apply (filterNotAuthor_In _ _ _ Hrest) in Hr. tauto.
Qed.

(** [run] truncates [candidates]. *)
Lemma run_candidates (changedFiles : list jsstring) (cfg : config)
    (prAuthor : jsstring) (maxReviewers : jsint) :
  run changedFiles cfg prAuthor maxReviewers
  = (c <- candidates changedFiles cfg prAuthor ;; Ok (slice0 c maxReviewers)).
Proof.
  unfold run, candidates.
  destruct (scoreRules changedFiles prAuthor (reviewers cfg) []) as [t|e];
    cbn [bind]; [|reflexivity].
  destruct (length t =? 0); [|reflexivity].
  destruct (defaults cfg) as [v|]; [|cbn [bind]; now rewrite slice0_nil].
  destruct (truthy v); [|cbn [bind]; now rewrite slice0_nil].
  destruct (filterDefaults v prAuthor) as [filtered|e]; cbn [bind]; [|reflexivity].
  destruct (slice0 filtered maxReviewers); reflexivity.
Qed.

Lemma insertEntry_sorted (e : jsstring * Z) (l : list (jsstring * Z)) :
  StronglySorted (fun a b => (snd b <= snd a)%Z) l ->
  StronglySorted (fun a b => (snd b <= snd a)%Z) (insertEntry e l).
Proof.
  induction 1 as [|e' l Hs IH Hall]; cbn [insertEntry].
  - repeat constructor.
  - destruct (Z.leb_spec (snd e' - snd e) 0) as [Hle|Hgt].
    + constructor; [now constructor|].
      constructor; [lia|].
      eapply Forall_impl; [|exact Hall]. cbn beta. intros a Ha. lia.
    + constructor; [exact IH|].
      eapply Permutation_Forall; [symmetry; apply insertEntry_perm|].
      constructor; [lia|exact Hall].
Qed.

(** [sortByScore] orders by descending score ... *)
Lemma sortByScore_sorted (l : list (jsstring * Z)) :
  StronglySorted (fun a b => (snd b <= snd a)%Z) (sortByScore l).
Proof.
  induction l as [|e l IH]; cbn [sortByScore]; [constructor|].
  now apply insertEntry_sorted.
Qed.

Lemma insertEntry_stable (e : jsstring * Z) (s : list (jsstring * Z)) (v : Z) :
  filter (fun x => (snd x =? v)%Z) (insertEntry e s)
  = filter (fun x => (snd x =? v)%Z) (e :: s).
Proof.
  induction s as [|e' s IHs]; [reflexivity|].
  cbn [insertEntry].
  destruct (Z.leb_spec (snd e' - snd e) 0) as [Hle|Hgt]; [reflexivity|].
  cbn [filter] in *. rewrite IHs.
  destruct (Z.eqb_spec (snd e) v) as [He|He];
    destruct (Z.eqb_spec (snd e') v) as [He'|He']; try reflexivity.
  lia.
Qed.

(** ... and keeps the entries of one score in their order: it is the
    stable sort. *)
Lemma sortByScore_stable (l : list (jsstring * Z)) (v : Z) :
  filter (fun x => (snd x =? v)%Z) (sortByScore l)
  = filter (fun x => (snd x =? v)%Z) l.
Proof.
  induction l as [|e l IH]; [reflexivity|].
  cbn [sortByScore]. rewrite insertEntry_stable. cbn [filter]. now rewrite IH.
Qed.

Lemma sortByScore_keys (t : scoreMap) (x : jsstring) :
  In x (map fst (sortByScore t)) <-> In x (keys t).
Proof.
  unfold keys. split; apply Permutation_in, Permutation_map;
    [|symmetry]; apply sortByScore_perm.
Qed.

Lemma sortByScore_NoDup (t : scoreMap) :
  NoDup (keys t) -> NoDup (map fst (sortByScore t)).
Proof.
  unfold keys. apply Permutation_NoDup, Permutation_map.
  symmetry. apply sortByScore_perm.
Qed.

(** The two sources of [candidates]. *)
Lemma candidates_inv (changedFiles : list jsstring) (cfg : config)
    (prAuthor : jsstring) (c : list jsstring) :
  candidates changedFiles cfg prAuthor = Ok c ->
  exists t,
    scoreRules changedFiles prAuthor (reviewers cfg) [] = Ok t
    /\ ((t <> [] /\ c = map fst (sortByScore t))
        \/ (t = []
            /\ (c = []
                \/ exists elems, defaults cfg = Some (JArray elems)
                                 /\ filterNotAuthor elems prAuthor = Ok c))).
Proof.
  unfold candidates.
  destruct (scoreRules changedFiles prAuthor (reviewers cfg) []) as [t|e];
    cbn [bind]; [|discriminate].
  intros H. exists t. split; [reflexivity|].
  destruct t as [|e t]; cbn [length Nat.eqb] in H.
  - right. split; [reflexivity|].
    destruct (defaults cfg) as [v|]; [|injection H as <-; now left].
    destruct (truthy v); [|injection H as <-; now left].
    destruct v as [| | | |s|elems]; try discriminate H.
    right. now exists elems.
  - left. injection H as <-. split; [discriminate|reflexivity].
Qed.

Lemma run_inv (changedFiles : list jsstring) (cfg : config)
    (prAuthor : jsstring) (maxReviewers : jsint) (l : list jsstring) :
  run changedFiles cfg prAuthor maxReviewers = Ok l ->
  exists c, candidates changedFiles cfg prAuthor = Ok c /\ l = slice0 c maxReviewers.
Proof.
  rewrite run_candidates.
  destruct (candidates changedFiles cfg prAuthor) as [c|e]; cbn [bind];
    [|discriminate].
  intros [= <-]. now exists c.
Qed.

(** A matching rule with a reviewer other than the author fills the
    table. *)
Lemma scoreRules_nonempty (changedFiles : list jsstring) (prAuthor : jsstring)
    (rules : list rule) (t : scoreMap) :
  scoreRules changedFiles prAuthor rules [] = Ok t ->
  (exists r u, In r rules /\ ruleMatched changedFiles r = Ok true
               /\ In (JString u) (asArray (users r)) /\ notAuthor prAuthor u) ->
  t <> [].
Proof.
  intros H (r & u & Hr & Hm & Hu & Hna).
  apply scoreRules_keys in H as [_ Hin].
  assert (Hk : In u (keys t)) by (apply Hin; right; now exists r).
  intros ->. exact Hk.
Qed.

(** ** Rules with an empty or a missing field *)

Lemma matchAnyFile_no_patterns (changedFiles : list jsstring) :
  matchAnyFile changedFiles [] = Ok false.
Proof.
  induction changedFiles as [|f fs IH]; [reflexivity|exact IH].
Qed.

Lemma scoreRule_empty_patterns (changedFiles : list jsstring) (prAuthor : jsstring)
    (scores : scoreMap) (r : rule) :
  patterns r = JArray [] ->
  scoreRule changedFiles prAuthor scores r = Ok scores.
Proof.
  intros Hp. unfold scoreRule. rewrite Hp. cbn [asArray].
  now rewrite matchAnyFile_no_patterns.
Qed.

Lemma scoreRule_empty_users (changedFiles : list jsstring) (prAuthor : jsstring)
    (scores : scoreMap) (r : rule) (b : bool) :
  users r = JArray [] ->
  ruleMatched changedFiles r = Ok b ->
  scoreRule changedFiles prAuthor scores r = Ok scores.
Proof.
  unfold scoreRule, ruleMatched. intros Hu Hm. rewrite Hu, Hm. cbn [bind asArray].
  now destruct b.
Qed.

Lemma scoreRule_missing_patterns (changedFiles : list jsstring) (prAuthor : jsstring)
    (scores : scoreMap) (r : rule) :
  patterns r = JUndefined ->
  changedFiles <> [] ->
  scoreRule changedFiles prAuthor scores r = Throw TypeError.
Proof.
  intros Hp Hf. unfold scoreRule. rewrite Hp.
  destruct changedFiles as [|f fs]; [congruence|reflexivity].
Qed.

Lemma scoreRule_missing_users (changedFiles : list jsstring) (prAuthor : jsstring)
    (scores : scoreMap) (r : rule) :
  users r = JUndefined ->
  ruleMatched changedFiles r = Ok true ->
  scoreRule changedFiles prAuthor scores r = Throw TypeError.
Proof.
  unfold scoreRule, ruleMatched. intros Hu Hm. now rewrite Hu, Hm.
Qed.

(** A rule that leaves the table as it is can be dropped. *)
Lemma run_drop_rule (changedFiles : list jsstring) (prAuthor : jsstring)
    (maxReviewers : jsint) (rs1 rs2 : list rule) (r : rule) (d : option jsval) :
  (forall scores, scoreRule changedFiles prAuthor scores r = Ok scores) ->
  run changedFiles (mkConfig (rs1 ++ r :: rs2) d) prAuthor maxReviewers
  = run changedFiles (mkConfig (rs1 ++ rs2) d) prAuthor maxReviewers.
Proof.
  intros Hr. unfold run. cbn [reviewers defaults].
  rewrite !scoreRules_app.
  destruct (scoreRules changedFiles prAuthor rs1 []) as [t|e]; cbn [bind];
    [|reflexivity].
  cbn [scoreRules]. now rewrite Hr.
Qed.

(** A rule that throws makes [run] fail. *)
Lemma run_rule_throws (changedFiles : list jsstring) (prAuthor : jsstring)
    (maxReviewers : jsint) (rs1 rs2 : list rule) (r : rule) (d : option jsval) :
  (forall scores, scoreRule changedFiles prAuthor scores r = Throw TypeError) ->
  exists e,
    run changedFiles (mkConfig (rs1 ++ r :: rs2) d) prAuthor maxReviewers = Throw e.
Proof.
  intros Hr. unfold run. cbn [reviewers defaults].
  rewrite scoreRules_app.
  destruct (scoreRules changedFiles prAuthor rs1 []) as [t|e]; cbn [bind].
  - cbn [scoreRules]. rewrite Hr. now exists TypeError.
  - now exists e.
Qed.

(** ** The only exception is the [TypeError] *)

Lemma matchAnyPattern_throw (file : jsstring) (pats : list jsval) (e : exn) :
  matchAnyPattern file pats = Throw e -> e = TypeError.
Proof.
  induction pats as [|pat pats IH]; cbn [matchAnyPattern]; [discriminate|].
  destruct pat as [| | | |p|]; cbn [matchPattern bind]; try (now intros [= <-]).
  fold (matchPattern file (JString p)). rewrite matchPattern_glob. cbn [bind].
  destruct (test (globRegex p) file); [discriminate|exact IH].
Qed.

Lemma matchAnyFile_throw (changedFiles : list jsstring) (pats : list jsval) (e : exn) :
  matchAnyFile changedFiles pats = Throw e -> e = TypeError.
Proof.
  induction changedFiles as [|f fs IH]; cbn [matchAnyFile]; [discriminate|].
  destruct (matchAnyPattern f pats) as [[|]|e'] eqn:Hf; cbn [bind].
  - discriminate.
  - exact IH.
  - intros [= <-]. now apply matchAnyPattern_throw in Hf.
Qed.

Lemma addReviewers_throw (revs : list jsval) (prAuthor : jsstring) (e : exn) :
  forall scores, addReviewers revs prAuthor scores = Throw e -> e = TypeError.
Proof.
  induction revs as [|rv revs IH]; intros scores; cbn [addReviewers]; [discriminate|].
  destruct rv as [| | | |name|]; try (now intros [= <-]).
  destruct (eqs (toLowerCase name) (toLowerCase prAuthor)); apply IH.
Qed.

Lemma scoreRule_throw (changedFiles : list jsstring) (prAuthor : jsstring)
    (scores : scoreMap) (r : rule) (e : exn) :
  scoreRule changedFiles prAuthor scores r = Throw e -> e = TypeError.
Proof.
  unfold scoreRule.
  destruct (matchAnyFile changedFiles (asArray (patterns r))) as [[|]|e'] eqn:Hm;
    cbn [bind].
  - apply addReviewers_throw.
  - discriminate.
  - intros [= <-]. now apply matchAnyFile_throw in Hm.
Qed.

Lemma scoreRules_throw (changedFiles : list jsstring) (prAuthor : jsstring)
    (rules : list rule) (e : exn) :
  forall scores, scoreRules changedFiles prAuthor rules scores = Throw e -> e = TypeError.
Proof.
  induction rules as [|r rules IH]; intros scores; cbn [scoreRules]; [discriminate|].
  destruct (scoreRule changedFiles prAuthor scores r) as [scores1|e'] eqn:Hr; cbn [bind].
  - apply IH.
  - intros [= <-]. now apply scoreRule_throw in Hr.
Qed.

(** A rule that throws makes [run] fail with a [TypeError], whatever the
    rules in front of it do. *)
Lemma run_rule_TypeError (changedFiles : list jsstring) (prAuthor : jsstring)
    (maxReviewers : jsint) (rs1 rs2 : list rule) (r : rule) (d : option jsval) :
  (forall scores, exists e, scoreRule changedFiles prAuthor scores r = Throw e) ->
  run changedFiles (mkConfig (rs1 ++ r :: rs2) d) prAuthor maxReviewers
  = Throw TypeError.
Proof.
  intros Hr. unfold run. cbn [reviewers defaults].
  rewrite scoreRules_app.
  destruct (scoreRules changedFiles prAuthor rs1 []) as [t|e] eqn:H1; cbn [bind].
  - cbn [scoreRules]. destruct (Hr t) as [e He]. rewrite He. cbn [bind].
    now rewrite (scoreRule_throw _ _ _ _ _ He).
  - now rewrite (scoreRules_throw _ _ _ _ _ H1).
Qed.

Lemma scoreRule_pattern_failure (changedFiles : list jsstring) (prAuthor : jsstring)
    (scores : scoreMap) (r : rule) (e : exn) :
  ruleMatched changedFiles r = Throw e ->
  scoreRule changedFiles prAuthor scores r = Throw e.
Proof.
  unfold scoreRule, ruleMatched. now intros ->.
Qed.

Lemma scoreRule_unmatched (changedFiles : list jsstring) (prAuthor : jsstring)
    (scores : scoreMap) (r : rule) :
  ruleMatched changedFiles r = Ok false ->
  scoreRule changedFiles prAuthor scores r = Ok scores.
Proof.
  unfold scoreRule, ruleMatched. now intros ->.
Qed.

(* ================================================================== *)
(** * The engine on small inputs *)
(* ================================================================== *)

Example regexSource_example :
  regexSource (str "src/**/*.t?x") = str "(^|/)src/.*/[^/]*\.t[^/]x$".
Proof. vm_compute. reflexivity. Qed.

Example matchPattern_tsx :
  matchPattern (str "src/components/Button.tsx") (JString (str "**/*.tsx")) = Ok true
  /\ matchPattern (str "src/components/Button.ts") (JString (str "**/*.tsx")) = Ok false.
Proof. split; vm_compute; reflexivity. Qed.

Example run_author_excluded :
  run [str "src/api/handler.go"]
    (mkConfig [mkRule (JArray [JString (str "src/api/**")])
                      (JArray [JString (str "backend1"); JString (str "backend2")])]
              None)
    (str "backend1") (Int 2)
  = Ok [str "backend2"].
Proof. vm_compute. reflexivity. Qed.

Example run_highest_score_first :
  run [str "infra/main.tf"]
    (mkConfig [mkRule (JArray [JString (str "*.tf")]) (JArray [JString (str "lead")]);
               mkRule (JArray [JString (str "infra/**")])
                      (JArray [JString (str "ops"); JString (str "lead")])]
              None)
    (str "author") (Int 1)
  = Ok [str "lead"].
Proof. vm_compute. reflexivity. Qed.

Example run_defaults :
  run [str "docs/a.md"]
    (mkConfig [mkRule (JArray [JString (str "src/**")]) (JArray [JString (str "bob")])]
              (Some (JArray [JString (str "lead1"); JString (str "lead2");
                             JString (str "lead3")])))
    (str "Lead2") (Int 2)
  = Ok [str "lead1"; str "lead3"].
Proof. vm_compute. reflexivity. Qed.

Example run_scalar_fields :
  run [str "main.tf"]
    (mkConfig [mkRule (JString (str "*.tf")) (JString (str "ops"))] None)
    (str "author") (Int 2)
  = Ok [str "ops"].
Proof. vm_compute. reflexivity. Qed.

(* ================================================================== *)
(** * Properties of [matchPattern] *)
(* ================================================================== *)

(** C1: what the code does with a globstar between two separators.  [**]
    is compiled to [.*], which takes any run of characters other than line
    terminators, path separators included, while the separators written
    around it stay mandatory.  So, for all [a] and [b], the pattern
    [a/**/b] matches [a/m/b] for every such run [m] (among them [a/x/b],
    [a/x/y/b] and [a//b]), and it never matches [a/b]: the globstar does
    not absorb zero segments. *)
Theorem globstar_keeps_both_separators (a b m : jsstring) :
  Forall (fun c => isLineTerminator c = false) m ->
  matchPattern (a ++ str "/" ++ m ++ str "/" ++ b) (JString (a ++ str "/**/" ++ b))
  = Ok true
  /\ matchPattern (a ++ str "/" ++ b) (JString (a ++ str "/**/" ++ b)) = Ok false.
Proof.
  intros Hm. split.
  - rewrite matchPattern_glob. f_equal. apply test_at_start.
    rewrite tokenize_app by reflexivity.
    change (tokenize (str "/**/" ++ b))
      with (TLit "/" :: TGlobstar :: TLit "/" :: tokenize b).
    rewrite map_app, <- app_assoc.
    apply tokens_match_self.
    cbn [map tokenRegex app seqOf str list_ascii_of_string].
    rewrite rmatch_seq, rmatch_char, rmatch_seq, rmatch_star_any.
    apply starChars_run.
    + eapply Forall_impl; [|exact Hm]. cbn beta. now intros c ->.
    + rewrite rmatch_seq, rmatch_char.
      rewrite <- (app_nil_r b) at 2.
      apply (@tokens_match_self b [REol] accept []). reflexivity.
  - destruct (matchPattern (a ++ str "/" ++ b) (JString (a ++ str "/**/" ++ b)))
      as [[|]|e] eqn:H.
    + apply matchPattern_slashes in H.
      rewrite !slashes_app in H. cbn in H. lia.
    + reflexivity.
    + rewrite matchPattern_glob in H. discriminate H.
Qed.

Lemma globstar_keeps_both_separators_witness :
  matchPattern (str "a/x/y/b") (JString (str "a/**/b")) = Ok true
  /\ matchPattern (str "a/b") (JString (str "a/**/b")) = Ok false.
Proof.
  apply (@globstar_keeps_both_separators (str "a") (str "b") (str "x/y")).
  repeat constructor.
Defined.

(** The depth-zero case on the smallest input. *)
Example globstar_zero_depth_example :
  matchPattern (str "a/b") (JString (str "a/**/b")) = Ok false.
Proof. vm_compute. reflexivity. Qed.

(** A pattern without wildcards that begins with a separator is found
    behind any prefix. *)
Lemma literal_rooted_pattern_floats (x pattern : jsstring) :
  literal pattern ->
  startsWith (str "/") pattern = true ->
  matchPattern (x ++ pattern) (JString pattern) = Ok true.
Proof.
  intros Hlit Hroot. apply matchPattern_literal; [exact Hlit|].
  rewrite Hroot. now exists x.
Qed.

(** C6: the code at a pattern with a leading separator.  Nothing anchors
    such a pattern at the start of the path, so it is looked for at every
    index: [/src/a.js] matches [foo/src/a.js], and it does not match the
    file [src/a.js] at the root of the repository. *)
Theorem leading_separator_not_anchored :
  matchPattern (str "foo/src/a.js") (JString (str "/src/a.js")) = Ok true
  /\ matchPattern (str "src/a.js") (JString (str "/src/a.js")) = Ok false.
Proof. split; vm_compute; reflexivity. Qed.

(** C9: [matchPattern] returns a boolean for every path and every pattern:
    the source it builds is always accepted by the constructor, which
    gives [globRegex pattern], where every character of the pattern other
    than [*] and [?] stands for itself.  So a pattern without [*] and [?]
    matches only its own text, whatever other characters it holds: the
    path has to end with the pattern, which starts the path or follows a
    separator (or, for a pattern that begins with a separator, starts
    anywhere). *)
Theorem matchPattern_total (filePath pattern : jsstring) :
  RegExp (regexSource pattern) = Some (globRegex pattern)
  /\ matchPattern filePath (JString pattern)
     = Ok (test (globRegex pattern) filePath)
  /\ (literal pattern ->
      (matchPattern filePath (JString pattern) = Ok true
       <-> if startsWith (str "/") pattern
           then exists x, filePath = x ++ pattern
           else filePath = pattern
                \/ exists x, filePath = x ++ str "/" ++ pattern)).
Proof.
  split; [|split].
  - apply RegExp_regexSource.
  - apply matchPattern_glob.
  - apply matchPattern_literal.
Qed.

Lemma matchPattern_total_witness :
  matchPattern (str "src/a.(b)[c]+$") (JString (str "a.(b)[c]+$")) = Ok true
  <-> str "src/a.(b)[c]+$" = str "a.(b)[c]+$"
      \/ exists x, str "src/a.(b)[c]+$" = x ++ str "/" ++ str "a.(b)[c]+$".
Proof.
  apply (proj2 (proj2 (matchPattern_total (str "src/a.(b)[c]+$") (str "a.(b)[c]+$")))).
  unfold literal. cbn [str list_ascii_of_string]. chars_differ.
Defined.

(* ================================================================== *)
(** * Properties of the selection *)
(* ================================================================== *)

(** C2, as the code has it: the defaults are consulted exactly when the
    score table is empty.  On every input for which [run] returns a list:
    when a matching rule lists a reviewer other than the author, every
    reviewer of the result is listed by a matching rule, and the result
    does not depend on the defaults; when every user that the matching
    rules list is the author, the score table is empty and the defaults
    are used: the result is the one [run] gives for the same defaults
    and no rules, and each of its reviewers is an entry of the defaults
    list other than the author. *)
Theorem matched_reviewers_override_defaults (changedFiles : list jsstring)
    (cfg : config) (prAuthor : jsstring) (maxReviewers : jsint) (l : list jsstring) :
  run changedFiles cfg prAuthor maxReviewers = Ok l ->
  ((exists r u, In r (reviewers cfg) /\ ruleMatched changedFiles r = Ok true
                /\ In (JString u) (asArray (users r)) /\ notAuthor prAuthor u) ->
   (forall x, In x l ->
      exists r, In r (reviewers cfg) /\ ruleMatched changedFiles r = Ok true
                /\ In (JString x) (asArray (users r)))
   /\ (forall d, run changedFiles (mkConfig (reviewers cfg) d) prAuthor maxReviewers
                 = Ok l))
  /\ ((forall r u, In r (reviewers cfg) -> ruleMatched changedFiles r = Ok true ->
                   In (JString u) (asArray (users r)) ->
                   toLowerCase u = toLowerCase prAuthor) ->
      scoreRules changedFiles prAuthor (reviewers cfg) [] = Ok []
      /\ run changedFiles (mkConfig [] (defaults cfg)) prAuthor maxReviewers = Ok l
      /\ (forall x, In x l ->
            exists elems, defaults cfg = Some (JArray elems)
                          /\ In (JString x) elems /\ notAuthor prAuthor x)).
Proof.
  intros Hrun. split.
  - intros Hex. unfold run in *. cbn [reviewers defaults].
    destruct (scoreRules changedFiles prAuthor (reviewers cfg) []) as [t|e] eqn:Ht;
      cbn [bind] in *; [|discriminate].
    pose proof (scoreRules_nonempty _ _ _ _ Ht Hex) as Hne.
    assert (Hlen : (length t =? 0) = false) by (destruct t; [congruence|reflexivity]).
    rewrite Hlen in *.
    split; [|intros _; exact Hrun].
    injection Hrun as <-. intros x Hx.
    apply slice0_In in Hx. rewrite sortByScore_keys in Hx.
    apply scoreRules_keys in Ht as [_ Hin].
    apply Hin in Hx as [[]|(r & Hr & Hm & Hu & _)].
    now exists r.
  - intros Hall.
    assert (Ht : scoreRules changedFiles prAuthor (reviewers cfg) [] = Ok []).
    { unfold run in Hrun.
      destruct (scoreRules changedFiles prAuthor (reviewers cfg) []) as [t|e] eqn:Ht;
        cbn [bind] in Hrun; [|discriminate].
      destruct t as [|[k v] t]; [reflexivity|]. exfalso.
      apply scoreRules_keys in Ht as [_ Hin].
      destruct (proj1 (Hin k) (in_eq _ _)) as [[]|(r & Hr & Hm & Hu & Hna)].
      apply Hna. now apply (Hall r). }
    split; [exact Ht|]. split.
    + unfold run in *. rewrite Ht in Hrun. cbn [reviewers defaults scoreRules bind] in *.
      exact Hrun.
    + intros x Hx. apply run_inv in Hrun as (c & Hc & ->). apply slice0_In in Hx.
      apply candidates_inv in Hc as (t & Ht' & [[Hne _]|[_ [->|(elems & Hd & Hf)]]]).
      * rewrite Ht in Ht'. injection Ht' as <-. congruence.
      * destruct Hx.
      * exists elems. split; [exact Hd|]. now apply (filterNotAuthor_In _ _ _ Hf).
Qed.

Lemma matched_reviewers_override_defaults_witness :
  ((forall x, In x [str "bob"] ->
      exists r,
        In r [mkRule (JArray [JString (str "src/**")])
                     (JArray [JString (str "alice"); JString (str "bob")])]
        /\ ruleMatched [str "src/a.js"] r = Ok true
        /\ In (JString x) (asArray (users r)))
   /\ (forall d,
         run [str "src/a.js"]
           (mkConfig [mkRule (JArray [JString (str "src/**")])
                             (JArray [JString (str "alice"); JString (str "bob")])] d)
           (str "Alice") (Int 2)
         = Ok [str "bob"]))
  /\ (scoreRules [str "src/a.js"] (str "Alice")
        [mkRule (JArray [JString (str "src/**")]) (JArray [JString (str "alice")])] []
      = Ok []
      /\ run [str "src/a.js"]
           (mkConfig [] (Some (JArray [JString (str "carol")])))
           (str "Alice") (Int 2)
         = Ok [str "carol"]
      /\ (forall x, In x [str "carol"] ->
            exists elems,
              Some (JArray [JString (str "carol")]) = Some (JArray elems)
              /\ In (JString x) elems /\ notAuthor (str "Alice") x)).
Proof.
  split.
  - apply (proj1 (matched_reviewers_override_defaults [str "src/a.js"]
             (mkConfig [mkRule (JArray [JString (str "src/**")])
                               (JArray [JString (str "alice"); JString (str "bob")])]
                       (Some (JArray [JString (str "carol")])))
             (str "Alice") (Int 2) [str "bob"] eq_refl)).
    eexists. exists (str "bob"). split; [left; reflexivity|].
    split; [vm_compute; reflexivity|].
    split; [right; left; reflexivity|].
    unfold notAuthor. vm_compute. discriminate.
  - apply (proj2 (matched_reviewers_override_defaults [str "src/a.js"]
             (mkConfig [mkRule (JArray [JString (str "src/**")])
                               (JArray [JString (str "alice")])]
                       (Some (JArray [JString (str "carol")])))
             (str "Alice") (Int 2) [str "carol"] eq_refl)).
    intros r u [<-|[]] _ [Hu|[]]. injection Hu as <-. reflexivity.
Defined.

(** C2, as stated, fails: the only matching rule lists only the author, and
    the reviewer of the result comes from the defaults. *)
Lemma defaults_used_when_author_only_counterexample :
  ruleMatched [str "src/a.js"]
    (mkRule (JArray [JString (str "src/**")]) (JArray [JString (str "alice")]))
  = Ok true
  /\ run [str "src/a.js"]
       (mkConfig [mkRule (JArray [JString (str "src/**")])
                         (JArray [JString (str "alice")])]
                 (Some (JArray [JString (str "carol")])))
       (str "Alice") (Int 2)
     = Ok [str "carol"].
Proof. split; vm_compute; reflexivity. Qed.

(** C3: the author never appears in the result, whatever the letter case,
    whether the result comes from the rules or from the defaults. *)
Theorem author_never_assigned (changedFiles : list jsstring) (cfg : config)
    (prAuthor : jsstring) (maxReviewers : jsint) (l : list jsstring) (x : jsstring) :
  run changedFiles cfg prAuthor maxReviewers = Ok l ->
  In x l ->
  toLowerCase x <> toLowerCase prAuthor.
Proof.
  intros Hrun Hx.
  apply run_inv in Hrun as (c & Hc & ->). apply slice0_In in Hx.
  apply candidates_inv in Hc as (t & Ht & [[_ ->]|[_ [->|(elems & _ & Hf)]]]).
  - rewrite sortByScore_keys in Hx.
    apply scoreRules_keys in Ht as [_ Hin].
    apply Hin in Hx as [[]|(r & _ & _ & _ & Hna)]. exact Hna.
  - destruct Hx.
  - apply (filterNotAuthor_In _ _ _ Hf) in Hx as [_ Hna]. exact Hna.
Qed.

Lemma author_never_assigned_witness :
  toLowerCase (str "bob") <> toLowerCase (str "Alice").
Proof.
  apply (@author_never_assigned [str "src/a.js"]
           (mkConfig [mkRule (JArray [JString (str "src/**")])
                             (JArray [JString (str "alice"); JString (str "bob")])]
                     None)
           (str "Alice") (Int 2) [str "bob"] (str "bob")).
  - vm_compute. reflexivity.
  - left. reflexivity.
Defined.

(** C4, as the code has it: a result that comes from the rules has no
    duplicates, since the score table has one entry per reviewer; the
    defaults are filtered and truncated, not deduplicated, so that a
    result that comes from them has no duplicates when the defaults list
    has none. *)
Theorem result_without_duplicates (changedFiles : list jsstring) (cfg : config)
    (prAuthor : jsstring) (maxReviewers : jsint) (l : list jsstring) :
  run changedFiles cfg prAuthor maxReviewers = Ok l ->
  (exists r u, In r (reviewers cfg) /\ ruleMatched changedFiles r = Ok true
               /\ In (JString u) (asArray (users r)) /\ notAuthor prAuthor u)
  \/ (forall elems, defaults cfg = Some (JArray elems) -> NoDup elems) ->
  NoDup l.
Proof.
  intros Hrun Hsrc.
  apply run_inv in Hrun as (c & Hc & ->). apply slice0_NoDup.
  apply candidates_inv in Hc as (t & Ht & [[_ ->]|[-> [->|(elems & Hd & Hf)]]]).
  - apply sortByScore_NoDup.
    apply scoreRules_keys in Ht as [Hnd _]. apply Hnd. constructor.
  - constructor.
  - destruct Hsrc as [Hex|Hnd].
    + now destruct (scoreRules_nonempty _ _ _ _ Ht Hex).
    + apply (filterNotAuthor_NoDup _ _ _ Hf). now apply Hnd.
Qed.

Lemma result_without_duplicates_witness :
  NoDup [str "bob"; str "carol"].
Proof.
  apply (result_without_duplicates [str "src/a.js"]
           (mkConfig [mkRule (JArray [JString (str "src/**")])
                             (JArray [JString (str "bob"); JString (str "carol");
                                      JString (str "bob")])]
                     None)
           (str "alice") (Int 2) [str "bob"; str "carol"]).
  - vm_compute. reflexivity.
  - left. eexists. exists (str "bob"). split; [left; reflexivity|].
    split; [vm_compute; reflexivity|].
    split; [left; reflexivity|].
    unfold notAuthor. vm_compute. discriminate.
Defined.

(** C4, as stated, fails: no rule matches and the defaults list holds a
    reviewer twice; the result holds it twice. *)
Lemma duplicate_defaults_counterexample :
  run [str "docs/a.md"]
    (mkConfig [mkRule (JArray [JString (str "src/**")]) (JArray [JString (str "bob")])]
              (Some (JArray [JString (str "lead"); JString (str "lead")])))
    (str "alice") (Int 2)
  = Ok [str "lead"; str "lead"]
  /\ ~ NoDup [str "lead"; str "lead"].
Proof.
  split; [vm_compute; reflexivity|].
  intros H. inversion H as [|? ? Hn _]. apply Hn. now left.
Qed.

(** C5, as the code has it: the result is [candidates] cut by
    [slice(0, maxReviewers)].  For [maxReviewers >= 0] it has at most
    [maxReviewers] elements, and it is empty for [0] and for [NaN]; for a
    negative [maxReviewers] the slice counts from the end and drops the
    last [-maxReviewers] candidates. *)
Theorem result_length (changedFiles : list jsstring) (cfg : config)
    (prAuthor : jsstring) (maxReviewers : jsint) (l : list jsstring) :
  run changedFiles cfg prAuthor maxReviewers = Ok l ->
  (forall z, maxReviewers = Int z -> (0 <= z)%Z -> (Z.of_nat (length l) <= z)%Z)
  /\ (maxReviewers = NaN \/ maxReviewers = Int 0 -> l = [])
  /\ (forall z, maxReviewers = Int z -> (z < 0)%Z ->
        exists c, candidates changedFiles cfg prAuthor = Ok c
                  /\ l = firstn (length c - Z.to_nat (- z)) c).
Proof.
  intros Hrun. apply run_inv in Hrun as (c & Hc & ->).
  split; [|split].
  - intros z -> Hz. now apply slice0_length_nonneg.
  - apply slice0_zero.
  - intros z -> Hz. exists c. split; [exact Hc|]. now apply slice0_negative.
Qed.

Lemma result_length_witness :
  (forall z, Int 1 = Int z -> (0 <= z)%Z -> (Z.of_nat (length [str "bob"]) <= z)%Z)
  /\ (Int 1 = NaN \/ Int 1 = Int 0 -> [str "bob"] = [])
  /\ (forall z, Int 1 = Int z -> (z < 0)%Z ->
        exists c,
          candidates [str "src/a.js"]
            (mkConfig [mkRule (JArray [JString (str "src/**")])
                              (JArray [JString (str "bob"); JString (str "carol")])]
                      None)
            (str "alice") = Ok c
          /\ [str "bob"] = firstn (length c - Z.to_nat (- z)) c).
Proof.
  apply (result_length [str "src/a.js"]
           (mkConfig [mkRule (JArray [JString (str "src/**")])
                             (JArray [JString (str "bob"); JString (str "carol")])]
                     None)
           (str "alice") (Int 1) [str "bob"]).
  vm_compute. reflexivity.
Defined.

(** C5, as stated, fails: with [maxReviewers = -1] and two candidates the
    result holds one reviewer. *)
Lemma negative_max_counterexample :
  run [str "src/a.js"]
    (mkConfig [mkRule (JArray [JString (str "src/**")])
                      (JArray [JString (str "bob"); JString (str "carol")])]
              None)
    (str "alice") (Int (-1))
  = Ok [str "bob"].
Proof. vm_compute. reflexivity. Qed.

(** C7: the code at a matching rule that lists a reviewer twice.  The loop
    over the users of the rule adds one per entry of the list, so the
    reviewer gets the score 2 from the one rule. *)
Theorem repeated_user_scored_twice :
  scoreRules [str "src/a.js"] (str "alice")
    [mkRule (JArray [JString (str "src/**")])
            (JArray [JString (str "bob"); JString (str "bob")])]
    []
  = Ok [(str "bob", 2%Z)].
Proof. vm_compute. reflexivity. Qed.

(** C8, as the code has it.  A rule whose [patterns] is an empty list
    never matches: the result is that of the configuration without the
    rule, whatever its [users] holds.  A rule whose [users] is an empty
    list adds no score: the result is that of the configuration without
    the rule as long as the evaluation of its patterns returns, and [run]
    fails with a [TypeError] when that evaluation throws.  A rule whose
    [patterns] is missing makes [run] fail with a [TypeError] as soon as
    there is a changed file, and is without effect when there is none; a
    rule whose [users] is missing makes [run] fail with a [TypeError] when
    the rule matches, and is without effect when it does not match:
    [undefined] has no [replace] and no [toLowerCase]. *)
Theorem empty_and_missing_fields (changedFiles : list jsstring)
    (prAuthor : jsstring) (maxReviewers : jsint) (rs1 rs2 : list rule) (r : rule)
    (d : option jsval) :
  (patterns r = JArray [] ->
   run changedFiles (mkConfig (rs1 ++ r :: rs2) d) prAuthor maxReviewers
   = run changedFiles (mkConfig (rs1 ++ rs2) d) prAuthor maxReviewers)
  /\ (users r = JArray [] ->
      ((exists b, ruleMatched changedFiles r = Ok b) ->
       run changedFiles (mkConfig (rs1 ++ r :: rs2) d) prAuthor maxReviewers
       = run changedFiles (mkConfig (rs1 ++ rs2) d) prAuthor maxReviewers)
      /\ ((exists e, ruleMatched changedFiles r = Throw e) ->
          run changedFiles (mkConfig (rs1 ++ r :: rs2) d) prAuthor maxReviewers
          = Throw TypeError))
  /\ (patterns r = JUndefined ->
      (changedFiles <> [] ->
       run changedFiles (mkConfig (rs1 ++ r :: rs2) d) prAuthor maxReviewers
       = Throw TypeError)
      /\ (changedFiles = [] ->
          run changedFiles (mkConfig (rs1 ++ r :: rs2) d) prAuthor maxReviewers
          = run changedFiles (mkConfig (rs1 ++ rs2) d) prAuthor maxReviewers))
  /\ (users r = JUndefined ->
      (ruleMatched changedFiles r = Ok true ->
       run changedFiles (mkConfig (rs1 ++ r :: rs2) d) prAuthor maxReviewers
       = Throw TypeError)
      /\ (ruleMatched changedFiles r = Ok false ->
          run changedFiles (mkConfig (rs1 ++ r :: rs2) d) prAuthor maxReviewers
          = run changedFiles (mkConfig (rs1 ++ rs2) d) prAuthor maxReviewers)).
Proof.
  split; [|split; [|split]].
  - intros Hp. apply run_drop_rule. intros scores.
    now apply scoreRule_empty_patterns.
  - intros Hu. split.
    + intros [b Hb]. apply run_drop_rule. intros scores.
      now apply scoreRule_empty_users with (b := b).
    + intros [e He]. apply run_rule_TypeError. intros scores. exists e.
      now apply scoreRule_pattern_failure.
  - intros Hp. split.
    + intros Hf. apply run_rule_TypeError. intros scores. exists TypeError.
      now apply scoreRule_missing_patterns.
    + intros ->. apply run_drop_rule. intros scores. now apply scoreRule_unmatched.
  - intros Hu. split.
    + intros Hm. apply run_rule_TypeError. intros scores. exists TypeError.
      now apply scoreRule_missing_users.
    + intros Hm. apply run_drop_rule. intros scores. now apply scoreRule_unmatched.
Qed.

Lemma empty_and_missing_fields_witness :
  (run [str "src/a.js"]
     (mkConfig ([] ++ mkRule (JArray []) (JArray [JString (str "dan")])
                   :: [mkRule (JArray [JString (str "src/**")])
                              (JArray [JString (str "bob")])]) None)
     (str "alice") (Int 2)
   = run [str "src/a.js"]
       (mkConfig ([] ++ [mkRule (JArray [JString (str "src/**")])
                                (JArray [JString (str "bob")])]) None)
       (str "alice") (Int 2))
  /\ (run [str "src/a.js"]
        (mkConfig ([] ++ mkRule (JArray [JNumber 5]) (JArray [])
                      :: [mkRule (JArray [JString (str "src/**")])
                                 (JArray [JString (str "bob")])]) None)
        (str "alice") (Int 2)
      = Throw TypeError)
  /\ (run [str "src/a.js"]
        (mkConfig ([] ++ mkRule JUndefined (JArray [JString (str "dan")])
                      :: [mkRule (JArray [JString (str "src/**")])
                                 (JArray [JString (str "bob")])]) None)
        (str "alice") (Int 2)
      = Throw TypeError)
  /\ (run [str "src/a.js"]
        (mkConfig ([] ++ mkRule (JArray [JString (str "src/**")]) JUndefined
                      :: [mkRule (JArray [JString (str "src/**")])
                                 (JArray [JString (str "bob")])]) None)
        (str "alice") (Int 2)
      = Throw TypeError).
Proof.
  split; [|split; [|split]].
  - apply (proj1 (empty_and_missing_fields [str "src/a.js"] (str "alice") (Int 2) []
                    [mkRule (JArray [JString (str "src/**")])
                            (JArray [JString (str "bob")])]
                    (mkRule (JArray []) (JArray [JString (str "dan")])) None)).
    reflexivity.
  - apply (proj2 (proj1 (proj2
             (empty_and_missing_fields [str "src/a.js"] (str "alice") (Int 2) []
                [mkRule (JArray [JString (str "src/**")])
                        (JArray [JString (str "bob")])]
                (mkRule (JArray [JNumber 5]) (JArray [])) None)) eq_refl)).
    exists TypeError. vm_compute. reflexivity.
  - apply (proj1 (proj1 (proj2 (proj2
             (empty_and_missing_fields [str "src/a.js"] (str "alice") (Int 2) []
                [mkRule (JArray [JString (str "src/**")])
                        (JArray [JString (str "bob")])]
                (mkRule JUndefined (JArray [JString (str "dan")])) None))) eq_refl)).
    discriminate.
  - apply (proj1 (proj2 (proj2 (proj2
             (empty_and_missing_fields [str "src/a.js"] (str "alice") (Int 2) []
                [mkRule (JArray [JString (str "src/**")])
                        (JArray [JString (str "bob")])]
                (mkRule (JArray [JString (str "src/**")]) JUndefined) None))) eq_refl)).
    vm_compute. reflexivity.
Defined.

(** C8, as stated, fails: a rule without [patterns] makes the evaluation
    fail although another rule matches. *)
Lemma missing_patterns_counterexample :
  run [str "src/a.js"]
    (mkConfig [mkRule JUndefined (JArray [JString (str "dan")]);
               mkRule (JArray [JString (str "src/**")]) (JArray [JString (str "bob")])]
              None)
    (str "alice") (Int 2)
  = Throw TypeError.
Proof. vm_compute. reflexivity. Qed.

(* ================================================================== *)
(** * Further properties of [matchPattern] *)
(* ================================================================== *)

Lemma starChars_inv (p : ascii -> bool) (k : nat -> jsstring -> bool) (s : jsstring) :
  forall i, starChars p k i s = true ->
    exists m s', s = m ++ s' /\ Forall (fun c => p c = true) m
                 /\ k (i + length m) s' = true.
Proof.
  induction s as [|c s IH]; intros i H; cbn [starChars] in H.
  - exists [], []. cbn [length]. rewrite Nat.add_0_r. auto.
  - apply orb_true_iff in H as [H|H].
    + apply andb_true_iff in H as [Hc H].
      apply IH in H as (m & s' & -> & Hm & Hk).
      exists (c :: m), s'. cbn [length]. rewrite Nat.add_succ_r. auto.
    + exists [], (c :: s). cbn [length]. rewrite Nat.add_0_r. auto.
Qed.

Lemma starChars_iff (p : ascii -> bool) (k : nat -> jsstring -> bool)
    (i : nat) (s : jsstring) :
  starChars p k i s = true
  <-> exists m s', s = m ++ s' /\ Forall (fun c => p c = true) m
                   /\ k (i + length m) s' = true.
Proof.
  split; [apply starChars_inv|].
  intros (m & s' & -> & Hm & Hk). now apply starChars_run.
Qed.

Lemma notSeparator_class (c : ascii) :
  xorb true (existsb (Ascii.eqb c) ["/"%char]) = true <-> c <> "/"%char.
Proof.
  cbn [existsb]. rewrite orb_false_r.
  destruct (Ascii.eqb c "/") eqn:E; cbn [xorb negb].
  - apply Ascii.eqb_eq in E. split; [discriminate|]. intros H. now destruct H.
  - apply Ascii.eqb_neq in E. split; auto.
Qed.

Lemma Forall_notSeparator (m : jsstring) :
  Forall (fun c => xorb true (existsb (Ascii.eqb c) ["/"%char]) = true) m
  <-> Forall (fun c => c <> "/"%char) m.
Proof.
  split; intros H; eapply Forall_impl; try exact H; intros c; apply notSeparator_class.
Qed.

Lemma Forall_notTerminator (m : jsstring) :
  Forall (fun c => negb (isLineTerminator c) = true) m
  <-> Forall (fun c => isLineTerminator c = false) m.
Proof.
  split; intros H; eapply Forall_impl; try exact H; intros c; cbn beta;
    destruct (isLineTerminator c); cbn [negb]; congruence.
Qed.

(** The compiled tokens match what [tokMatch] tells, at every index. *)
Lemma rmatch_tokens (ts : list token) :
  forall i s,
    rmatch (seqOf (map tokenRegex ts ++ [REol])) accept i s = true <-> tokMatch ts s.
Proof.
  induction ts as [|t ts IH]; intros i s.
  - cbn [map app seqOf rmatch tokMatch]. destruct s; unfold accept; split; congruence.
  - cbn [map app seqOf]. rewrite rmatch_seq.
    destruct t as [c| | |]; cbn [tokenRegex tokMatch].
    + cbn [rmatch]. split.
      * intros H. apply oneChar_inv in H as (x & s' & -> & Hx & Hk).
        apply Ascii.eqb_eq in Hx. subst x. exists s'. split; [reflexivity|].
        now apply IH in Hk.
      * intros (s' & -> & Hk). cbn [oneChar]. rewrite Ascii.eqb_refl.
        now apply (IH (S i)) in Hk.
    + rewrite rmatch_star_class, starChars_iff. split.
      * intros (m & s' & -> & Hm & Hk). exists m, s'.
        split; [reflexivity|]. split; [now apply Forall_notSeparator|].
        now apply IH in Hk.
      * intros (m & s' & -> & Hm & Hk). exists m, s'.
        split; [reflexivity|]. split; [now apply Forall_notSeparator|].
        now apply IH.
    + cbn [rmatch]. split.
      * intros H. apply oneChar_inv in H as (x & s' & -> & Hx & Hk).
        exists x, s'. split; [reflexivity|].
        split; [now apply notSeparator_class|]. now apply IH in Hk.
      * intros (x & s' & -> & Hx & Hk). cbn [oneChar].
        apply notSeparator_class in Hx. rewrite Hx.
        now apply (IH (S i)) in Hk.
    + rewrite rmatch_star_any, starChars_iff. split.
      * intros (m & s' & -> & Hm & Hk). exists m, s'.
        split; [reflexivity|]. split; [now apply Forall_notTerminator|].
        now apply IH in Hk.
      * intros (m & s' & -> & Hm & Hk). exists m, s'.
        split; [reflexivity|]. split; [now apply Forall_notTerminator|].
        now apply IH.
Qed.

(** [searchFrom] finds a match that starts behind some part [x] of the
    input. *)
Lemma searchFrom_iff (r : regex) (s : jsstring) :
  forall i,
    searchFrom r i s = true
    <-> exists x s', s = x ++ s' /\ rmatch r accept (i + length x) s' = true.
Proof.
  induction s as [|c s IH]; intros i; cbn [searchFrom]; fold accept.
  - rewrite orb_false_r. split.
    + intros H. exists [], []. cbn [length]. now rewrite Nat.add_0_r.
    + intros (x & s' & Hx & H). symmetry in Hx.
      apply app_eq_nil in Hx as [-> ->]. cbn [length] in H.
      now rewrite Nat.add_0_r in H.
  - rewrite orb_true_iff, IH. split.
    + intros [H|(x & s' & -> & H)].
      * exists [], (c :: s). cbn [length]. now rewrite Nat.add_0_r.
      * exists (c :: x), s'. cbn [length]. now rewrite Nat.add_succ_r.
    + intros ([|y x] & s' & Hx & H).
      * cbn [app length] in *. subst s'. rewrite Nat.add_0_r in H. now left.
      * injection Hx as -> ->. right. exists x, s'. split; [reflexivity|].
        cbn [length] in H. now rewrite Nat.add_succ_r in H.
Qed.

(** The group [(^|/)] in front of the tokens. *)
Lemma rmatch_anchored (ts : list token) (i : nat) (s : jsstring) :
  rmatch (seqOf ([anchorGroup] ++ map tokenRegex ts ++ [REol])) accept i s = true
  <-> (i = 0 /\ tokMatch ts s) \/ exists s', s = "/"%char :: s' /\ tokMatch ts s'.
Proof.
  cbn [app seqOf]. rewrite rmatch_seq. cbn [anchorGroup rmatch].
  rewrite orb_true_iff, andb_true_iff, Nat.eqb_eq, rmatch_tokens. split.
  - intros [H|H]; [now left|]. right.
    apply oneChar_inv in H as (x & s' & -> & Hx & Hk).
    apply Ascii.eqb_eq in Hx. subst x. exists s'. split; [reflexivity|].
    now apply rmatch_tokens in Hk.
  - intros [H|(s' & -> & Hk)]; [now left|]. right.
    cbn [oneChar Ascii.eqb Bool.eqb andb]. now apply rmatch_tokens.
Qed.

(** ** The glob semantics of [matchPattern] *)

Lemma matchPattern_tokens (filePath pattern : jsstring) :
  matchPattern filePath (JString pattern) = Ok true
  <-> exists x s,
        filePath = x ++ s /\ atBoundary pattern x /\ tokMatch (tokenize pattern) s.
Proof.
  rewrite matchPattern_glob. unfold test, globRegex, atBoundary.
  destruct (startsWith (str "/") pattern); cbn [negb].
  - cbn [app]. split.
    + intros [= H]. apply searchFrom_iff in H as (x & s & -> & H).
      exists x, s. split; [reflexivity|]. split; [exact I|].
      now apply rmatch_tokens in H.
    + intros (x & s & -> & _ & H). f_equal. apply searchFrom_iff.
      exists x, s. split; [reflexivity|]. now apply rmatch_tokens.
  - split.
    + intros [= H]. apply searchFrom_iff in H as (x & s & -> & H).
      apply rmatch_anchored in H as [[Hx H]|(s' & -> & H)].
      * exists x, s. split; [reflexivity|]. split; [|exact H].
        left. cbn [Nat.add] in Hx. now apply length_zero_iff_nil.
      * exists (x ++ str "/"), s'. rewrite <- app_assoc.
        split; [reflexivity|]. split; [|exact H]. right. now exists x.
    + intros (x & s & -> & Hb & H). f_equal. apply searchFrom_iff.
      destruct Hb as [->|(y & ->)].
      * exists [], s. split; [reflexivity|]. apply rmatch_anchored. now left.
      * exists y, ("/"%char :: s). rewrite <- app_assoc.
        split; [reflexivity|]. apply rmatch_anchored. right. now exists s.
Qed.

Lemma tokenize_literal_app (a r : jsstring) :
  literal a -> tokenize (a ++ r) = map TLit a ++ tokenize r.
Proof.
  induction 1 as [|c a [H1 H2] _ IH]; [reflexivity|].
  cbn [app map]. rewrite tokenize_lit by assumption. now rewrite IH.
Qed.

Lemma literal_no_star_head (b : jsstring) :
  literal b -> startsWith (str "*") b = false.
Proof.
  intros H. destruct H as [|c b [H1 _] _]; [reflexivity|].
  cbn [str list_ascii_of_string startsWith]. rewrite andb_true_r.
  apply Ascii.eqb_neq. congruence.
Qed.

Lemma tokMatch_literal_app (a : jsstring) (ts : list token) (s : jsstring) :
  tokMatch (map TLit a ++ ts) s <-> exists s', s = a ++ s' /\ tokMatch ts s'.
Proof.
  revert s. induction a as [|c a IH]; intros s; cbn [map app tokMatch].
  - split; [intros H; now exists s|now intros (s' & -> & H)].
  - split.
    + intros (s1 & -> & H). apply IH in H as (s' & -> & H). now exists s'.
    + intros (s' & -> & H). exists (a ++ s'). split; [reflexivity|].
      apply IH. now exists s'.
Qed.

Lemma tokMatch_literal (b s : jsstring) : tokMatch (map TLit b) s <-> s = b.
Proof.
  rewrite <- (app_nil_r (map TLit b)), tokMatch_literal_app. cbn [tokMatch]. split.
  - intros (s' & -> & ->). apply app_nil_r.
  - intros ->. exists []. now rewrite app_nil_r.
Qed.

(** X1: [matchPattern] as a glob matcher.  A path is matched exactly when
    a part of it from an admissible start to its end is matched by the
    tokens of the pattern, where a literal matches itself, [?] one
    character other than [/], [*] any run of characters other than [/],
    and [**] any run of characters other than line terminators. *)
Theorem glob_semantics (filePath pattern : jsstring) :
  matchPattern filePath (JString pattern) = Ok true
  <-> exists x s,
        filePath = x ++ s /\ atBoundary pattern x /\ tokMatch (tokenize pattern) s.
Proof. apply matchPattern_tokens. Qed.

(** X2: [*] never crosses a separator.  For texts [a] and [b] without
    wildcards, [a*b] matches the paths that end, from an admissible start,
    with [a], a run of characters other than [/], and [b]. *)
Theorem star_stays_in_segment (filePath a b : jsstring) :
  literal a -> literal b ->
  matchPattern filePath (JString (a ++ str "*" ++ b)) = Ok true
  <-> exists x m,
        filePath = x ++ a ++ m ++ b
        /\ atBoundary (a ++ str "*" ++ b) x
        /\ Forall (fun c => c <> "/"%char) m.
Proof.
  intros Ha Hb. rewrite matchPattern_tokens.
  rewrite (tokenize_literal_app _ _ Ha).
  change (str "*" ++ b) with ("*"%char :: b).
  rewrite (tokenize_star _ (literal_no_star_head _ Hb)), (tokenize_literal _ Hb).
  split.
  - intros (x & s & -> & Hx & H).
    apply tokMatch_literal_app in H as (s1 & -> & H). cbn [tokMatch] in H.
    destruct H as (m & s2 & -> & Hm & H). apply tokMatch_literal in H. subst s2.
    now exists x, m.
  - intros (x & m & -> & Hx & Hm). exists x, (a ++ m ++ b).
    split; [reflexivity|]. split; [exact Hx|].
    apply tokMatch_literal_app. exists (m ++ b). split; [reflexivity|].
    cbn [tokMatch]. exists m, b. split; [reflexivity|]. split; [exact Hm|].
    now apply tokMatch_literal.
Qed.

Lemma star_stays_in_segment_witness :
  matchPattern (str "infra/main.tf") (JString (str "" ++ str "*" ++ str ".tf")) = Ok true
  <-> exists x m,
        str "infra/main.tf" = x ++ str "" ++ m ++ str ".tf"
        /\ atBoundary (str "" ++ str "*" ++ str ".tf") x
        /\ Forall (fun c => c <> "/"%char) m.
Proof.
  apply (star_stays_in_segment (str "infra/main.tf") (str "") (str ".tf")).
  - constructor.
  - unfold literal. cbn [str list_ascii_of_string]. chars_differ.
Defined.

(** X3: [?] stands for exactly one character other than the separator. *)
Theorem question_is_one_character (filePath a b : jsstring) :
  literal a -> literal b ->
  matchPattern filePath (JString (a ++ str "?" ++ b)) = Ok true
  <-> exists x c,
        filePath = x ++ a ++ c :: b
        /\ atBoundary (a ++ str "?" ++ b) x
        /\ c <> "/"%char.
Proof.
  intros Ha Hb. rewrite matchPattern_tokens.
  rewrite (tokenize_literal_app _ _ Ha).
  change (str "?" ++ b) with ("?"%char :: b).
  rewrite tokenize_question, (tokenize_literal _ Hb).
  split.
  - intros (x & s & -> & Hx & H).
    apply tokMatch_literal_app in H as (s1 & -> & H). cbn [tokMatch] in H.
    destruct H as (c & s2 & -> & Hc & H). apply tokMatch_literal in H. subst s2.
    now exists x, c.
  - intros (x & c & -> & Hx & Hc). exists x, (a ++ c :: b).
    split; [reflexivity|]. split; [exact Hx|].
    apply tokMatch_literal_app. exists (c :: b). split; [reflexivity|].
    cbn [tokMatch]. exists c, b. split; [reflexivity|]. split; [exact Hc|].
    now apply tokMatch_literal.
Qed.

Lemma question_is_one_character_witness :
  matchPattern (str "src/v1.js") (JString (str "v" ++ str "?" ++ str ".js")) = Ok true
  <-> exists x c,
        str "src/v1.js" = x ++ str "v" ++ c :: str ".js"
        /\ atBoundary (str "v" ++ str "?" ++ str ".js") x
        /\ c <> "/"%char.
Proof.
  apply (question_is_one_character (str "src/v1.js") (str "v") (str ".js"));
    unfold literal; cbn [str list_ascii_of_string]; chars_differ.
Defined.

(** X4: [**] stands for any run of characters other than line terminators,
    separators included, and for nothing else. *)
Theorem globstar_is_any_run (filePath a b : jsstring) :
  literal a -> literal b ->
  matchPattern filePath (JString (a ++ str "**" ++ b)) = Ok true
  <-> exists x m,
        filePath = x ++ a ++ m ++ b
        /\ atBoundary (a ++ str "**" ++ b) x
        /\ Forall (fun c => isLineTerminator c = false) m.
Proof.
  intros Ha Hb. rewrite matchPattern_tokens.
  rewrite (tokenize_literal_app _ _ Ha).
  change (str "**" ++ b) with ("*"%char :: "*"%char :: b).
  rewrite tokenize_globstar, (tokenize_literal _ Hb).
  split.
  - intros (x & s & -> & Hx & H).
    apply tokMatch_literal_app in H as (s1 & -> & H). cbn [tokMatch] in H.
    destruct H as (m & s2 & -> & Hm & H). apply tokMatch_literal in H. subst s2.
    now exists x, m.
  - intros (x & m & -> & Hx & Hm). exists x, (a ++ m ++ b).
    split; [reflexivity|]. split; [exact Hx|].
    apply tokMatch_literal_app. exists (m ++ b). split; [reflexivity|].
    cbn [tokMatch]. exists m, b. split; [reflexivity|]. split; [exact Hm|].
    now apply tokMatch_literal.
Qed.

Lemma globstar_is_any_run_witness :
  matchPattern (str "src/api/v1/handler.go") (JString (str "src/api/" ++ str "**" ++ str ""))
  = Ok true
  <-> exists x m,
        str "src/api/v1/handler.go" = x ++ str "src/api/" ++ m ++ str ""
        /\ atBoundary (str "src/api/" ++ str "**" ++ str "") x
        /\ Forall (fun c => isLineTerminator c = false) m.
Proof.
  apply (globstar_is_any_run (str "src/api/v1/handler.go") (str "src/api/") (str "")).
  - unfold literal. cbn [str list_ascii_of_string]. chars_differ.
  - constructor.
Defined.

(** X5: a match survives directories put in front of the path: whatever
    the pattern, with or without a leading separator, a path that is
    matched is still matched inside any directory [d]. *)
Theorem match_survives_parent_directory (filePath pattern d : jsstring) :
  matchPattern filePath (JString pattern) = Ok true ->
  matchPattern (d ++ str "/" ++ filePath) (JString pattern) = Ok true.
Proof.
  rewrite !matchPattern_tokens. intros (x & s & -> & Hx & H).
  exists (d ++ str "/" ++ x), s. rewrite <- !app_assoc.
  split; [reflexivity|]. split; [|exact H].
  unfold atBoundary in *. destruct (startsWith (str "/") pattern); [exact I|].
  right. destruct Hx as [->|(y & ->)].
  - exists d. now rewrite app_nil_r.
  - exists (d ++ str "/" ++ y). now rewrite <- !app_assoc.
Qed.

Lemma match_survives_parent_directory_witness :
  matchPattern (str "vendor" ++ str "/" ++ str "src/a.js") (JString (str "src/*.js"))
  = Ok true.
Proof.
  apply (match_survives_parent_directory (str "src/a.js") (str "src/*.js") (str "vendor")).
  vm_compute. reflexivity.
Defined.

(** X6: a matched path holds at least as many separators as the pattern.
    In particular a pattern with a separator, such as [**/*.go], matches
    no file at the root of the repository. *)
Theorem separators_of_pattern_needed (filePath pattern : jsstring) :
  matchPattern filePath (JString pattern) = Ok true ->
  slashes pattern <= slashes filePath.
Proof. apply matchPattern_slashes. Qed.

Lemma separators_of_pattern_needed_witness :
  slashes (str "**/*.go") <= slashes (str "cmd/main.go").
Proof.
  apply (separators_of_pattern_needed (str "cmd/main.go") (str "**/*.go")).
  vm_compute. reflexivity.
Defined.

(** X7: the five replacements act as one pass over the pattern from left to
    right: [**] gives [.*], a remaining [*] gives [[^/]*], [?] gives
    [[^/]], a special character is escaped and any other character is
    copied; the placeholder for [**] never collides with the text of the
    pattern.  [(^|/)] is put in front unless the pattern begins with a
    separator, and [$] behind. *)
Theorem regexSource_one_pass (pattern : jsstring) :
  regexSource pattern
  = (if negb (startsWith (str "/") pattern) then str "(^|/)" else [])
    ++ flat_map (tokenSource (str "[^/]*") (str "[^/]") (str ".*")) (tokenize pattern)
    ++ str "$".
Proof. apply regexSource_tokens. Qed.

(* ================================================================== *)
(** * Further properties of the selection *)
(* ================================================================== *)

Lemma matchAnyPattern_strings (file : jsstring) (ps : list jsstring) :
  matchAnyPattern file (map JString ps)
  = Ok (existsb (fun p => test (globRegex p) file) ps).
Proof.
  induction ps as [|p ps IH]; [reflexivity|].
  cbn [map matchAnyPattern existsb]. rewrite matchPattern_glob. cbn [bind].
  destruct (test (globRegex p) file); [reflexivity|exact IH].
Qed.

Lemma matchAnyFile_strings (changedFiles : list jsstring) (ps : list jsstring) :
  matchAnyFile changedFiles (map JString ps)
  = Ok (existsb (fun f => existsb (fun p => test (globRegex p) f) ps) changedFiles).
Proof.
  induction changedFiles as [|f fs IH]; [reflexivity|].
  cbn [matchAnyFile existsb]. rewrite matchAnyPattern_strings. cbn [bind].
  destruct (existsb (fun p => test (globRegex p) f) ps); [reflexivity|exact IH].
Qed.

Lemma existsb_perm (A : Type) (f : A -> bool) (l l' : list A) :
  Permutation l l' -> existsb f l = existsb f l'.
Proof.
  induction 1 as [|x l l' _ IH|x y l|l l' l'' _ IH1 _ IH2]; cbn [existsb].
  - reflexivity.
  - now rewrite IH.
  - now destruct (f x), (f y).
  - now rewrite IH1.
Qed.

Lemma scoreRule_perm (files files' : list jsstring) (prAuthor : jsstring)
    (scores : scoreMap) (r : rule) :
  stringsOnly (patterns r) ->
  Permutation files files' ->
  scoreRule files prAuthor scores r = scoreRule files' prAuthor scores r.
Proof.
  intros [ps Hps] Hperm. unfold scoreRule. rewrite Hps, !matchAnyFile_strings.
  now rewrite (existsb_perm _ _ _ _ Hperm).
Qed.

Lemma scoreRules_perm (files files' : list jsstring) (prAuthor : jsstring)
    (rules : list rule) :
  (forall r, In r rules -> stringsOnly (patterns r)) ->
  Permutation files files' ->
  forall scores,
    scoreRules files prAuthor rules scores = scoreRules files' prAuthor rules scores.
Proof.
  intros Hwf Hperm. induction rules as [|r rules IH]; intros scores; [reflexivity|].
  cbn [scoreRules].
  rewrite (scoreRule_perm files files') by (auto using in_eq).
  destruct (scoreRule files' prAuthor scores r); cbn [bind]; [|reflexivity].
  apply IH. intros r' Hr'. apply Hwf. now right.
Qed.

(** X8: the order of the changed files does not matter.  When the patterns
    of every rule are strings, [run] gives the same result for any
    reordering of [changedFiles]. *)
Theorem changed_files_order_irrelevant (files files' : list jsstring) (cfg : config)
    (prAuthor : jsstring) (maxReviewers : jsint) :
  (forall r, In r (reviewers cfg) -> stringsOnly (patterns r)) ->
  Permutation files files' ->
  run files cfg prAuthor maxReviewers = run files' cfg prAuthor maxReviewers.
Proof.
  intros Hwf Hperm. unfold run.
  now rewrite (scoreRules_perm files files' prAuthor (reviewers cfg) Hwf Hperm).
Qed.

Lemma changed_files_order_irrelevant_witness :
  run [str "docs/a.md"; str "src/a.js"]
    (mkConfig [mkRule (JArray [JString (str "src/**")]) (JArray [JString (str "bob")])]
              None)
    (str "alice") (Int 2)
  = run [str "src/a.js"; str "docs/a.md"]
      (mkConfig [mkRule (JArray [JString (str "src/**")]) (JArray [JString (str "bob")])]
                None)
      (str "alice") (Int 2).
Proof.
  apply changed_files_order_irrelevant.
  - intros r [<-|[]]. exists [str "src/**"]. reflexivity.
  - apply perm_swap.
Defined.

Lemma mapGet_mapSet_other (m : scoreMap) (key u : jsstring) (v : Z) :
  key <> u -> mapGet (mapSet m key v) u = mapGet m u.
Proof.
  intros Hne. induction m as [|[k v'] m IH]; cbn [mapSet mapGet].
  - apply eqs_neq in Hne. now rewrite Hne.
  - destruct (eqs k key) eqn:Hk; cbn [mapGet].
    + apply eqs_eq in Hk. subst k. apply eqs_neq in Hne. now rewrite Hne.
    + destruct (eqs k u); [reflexivity|exact IH].
Qed.

Lemma mapGet_None (m : scoreMap) (u : jsstring) :
  mapGet m u = None <-> ~ In u (keys m).
Proof.
  induction m as [|[k v] m IH]; cbn [mapGet keys map fst In].
  - tauto.
  - fold (keys m). destruct (eqs k u) eqn:Hk.
    + apply eqs_eq in Hk. split; [discriminate|]. intros H. exfalso. auto.
    + apply eqs_neq in Hk. rewrite IH. tauto.
Qed.

Lemma addReviewers_score (revs : list jsval) (prAuthor u : jsstring) :
  notAuthor prAuthor u ->
  forall scores scores',
    addReviewers revs prAuthor scores = Ok scores' ->
    scoreOf scores' u
    = (scoreOf scores u + Z.of_nat (length (filter (isName u) revs)))%Z.
Proof.
  intros Hu. induction revs as [|rv revs IH]; intros scores scores' H;
    cbn [addReviewers] in H.
  - injection H as <-. cbn [filter length]. lia.
  - destruct rv as [| | | |name|]; try discriminate H.
    cbn [filter isName].
    destruct (eqs (toLowerCase name) (toLowerCase prAuthor)) eqn:He.
    + apply eqs_eq in He.
      assert (Hn : eqs name u = false).
      { apply eqs_neq. intros ->. now apply Hu. }
      rewrite Hn. now apply IH.
    + apply IH in H. rewrite H. unfold scoreOf.
      destruct (eqs name u) eqn:Hn.
      * apply eqs_eq in Hn. subst name. rewrite mapGet_mapSet.
        cbn [length orZero]. lia.
      * apply eqs_neq in Hn. now rewrite mapGet_mapSet_other.
Qed.

Lemma scoreRules_score (changedFiles : list jsstring) (prAuthor u : jsstring)
    (rules : list rule) :
  notAuthor prAuthor u ->
  forall scores scores',
    scoreRules changedFiles prAuthor rules scores = Ok scores' ->
    scoreOf scores' u
    = (scoreOf scores u + Z.of_nat (listings changedFiles u rules))%Z.
Proof.
  intros Hu. induction rules as [|r rules IH]; intros scores scores' H;
    cbn [scoreRules listings] in *.
  - injection H as <-. lia.
  - destruct (scoreRule changedFiles prAuthor scores r) as [scores1|e] eqn:H1;
      cbn [bind] in H; [|discriminate].
    apply IH in H. rewrite H. unfold scoreRule in H1. unfold ruleMatched.
    destruct (matchAnyFile changedFiles (asArray (patterns r))) as [[|]|e];
      cbn [bind] in H1; try discriminate H1.
    + apply (addReviewers_score _ _ _ Hu) in H1. rewrite H1. lia.
    + injection H1 as <-. lia.
Qed.

(** X9: the score of a reviewer other than the author is the number of
    times the matching rules list it, each entry of a [users] list counted;
    the author gets no entry. *)
Theorem score_counts_listings (changedFiles : list jsstring) (prAuthor : jsstring)
    (rules : list rule) (t : scoreMap) (u : jsstring) :
  scoreRules changedFiles prAuthor rules [] = Ok t ->
  (notAuthor prAuthor u -> scoreOf t u = Z.of_nat (listings changedFiles u rules))
  /\ (~ notAuthor prAuthor u -> mapGet t u = None).
Proof.
  intros H. split.
  - intros Hu. now rewrite (scoreRules_score _ _ _ _ Hu _ _ H).
  - intros Hu. apply mapGet_None. intros Hk.
    apply scoreRules_keys in H as [_ Hin].
    apply Hin in Hk as [[]|(r & _ & _ & _ & Hna)]. contradiction.
Qed.

Lemma score_counts_listings_witness :
  (notAuthor (str "alice") (str "bob") ->
   scoreOf [(str "bob", 3%Z)] (str "bob")
   = Z.of_nat
       (listings [str "src/a.js"] (str "bob")
          [mkRule (JArray [JString (str "src/**")])
                  (JArray [JString (str "bob"); JString (str "Alice");
                           JString (str "bob")]);
           mkRule (JArray [JString (str "docs/**")]) (JArray [JString (str "bob")]);
           mkRule (JString (str "*.js")) (JString (str "bob"))]))
  /\ (~ notAuthor (str "alice") (str "bob") -> mapGet [(str "bob", 3%Z)] (str "bob") = None).
Proof.
  apply (score_counts_listings [str "src/a.js"] (str "alice")
           [mkRule (JArray [JString (str "src/**")])
                   (JArray [JString (str "bob"); JString (str "Alice");
                            JString (str "bob")]);
            mkRule (JArray [JString (str "docs/**")]) (JArray [JString (str "bob")]);
            mkRule (JString (str "*.js")) (JString (str "bob"))]
           [(str "bob", 3%Z)] (str "bob")).
  vm_compute. reflexivity.
Defined.

(** ** The order of the result *)

Lemma before_firstn (A : Type) (x y : A) (n : nat) (l : list A) :
  before x y (firstn n l) -> before x y l.
Proof.
  intros (l1 & l2 & l3 & H). exists l1, l2, (l3 ++ skipn n l).
  rewrite <- (firstn_skipn n l) at 1. rewrite H.
  now rewrite <- !app_assoc, <- !app_comm_cons, <- app_assoc.
Qed.

Lemma map_eq_cons_app (A B : Type) (f : A -> B) (l : list A) (l1 : list B) (y : B)
    (l2 : list B) :
  map f l = l1 ++ y :: l2 ->
  exists s1 e s2, l = s1 ++ e :: s2 /\ map f s1 = l1 /\ f e = y /\ map f s2 = l2.
Proof.
  revert l. induction l1 as [|b l1 IH]; intros [|a l] H; try discriminate H.
  - injection H as <- <-. now exists [], a, l.
  - injection H as <- H. apply IH in H as (s1 & e & s2 & -> & <- & <- & <-).
    now exists (a :: s1), e, s2.
Qed.

Lemma before_map_fst (x y : jsstring) (s : list (jsstring * Z)) :
  before x y (map fst s) ->
  exists vx vy, before (x, vx) (y, vy) s.
Proof.
  intros (l1 & l2 & l3 & H).
  apply map_eq_cons_app in H as (s1 & [x' vx] & s' & -> & _ & Hx & H).
  apply map_eq_cons_app in H as (s2 & [y' vy] & s3 & -> & _ & Hy & _).
  cbn [fst] in Hx, Hy. subst x' y'.
  exists vx, vy, s1, s2, s3. reflexivity.
Qed.

Lemma before_map (A B : Type) (f : A -> B) (x y : A) (l : list A) :
  before x y l -> before (f x) (f y) (map f l).
Proof.
  intros (l1 & l2 & l3 & ->). exists (map f l1), (map f l2), (map f l3).
  now rewrite !map_app, !map_cons, !map_app, !map_cons.
Qed.

Lemma sorted_before (A : Type) (R : A -> A -> Prop) (x y : A) (l : list A) :
  StronglySorted R l -> before x y l -> R x y.
Proof.
  intros Hs (l1 & l2 & l3 & ->).
  induction l1 as [|a l1 IH]; cbn [app] in Hs; inversion Hs as [|? ? Hs' Hall]; subst.
  - rewrite Forall_forall in Hall. apply Hall. rewrite in_app_iff. right. now left.
  - now apply IH.
Qed.

Lemma before_In (A : Type) (x y : A) (l : list A) :
  before x y l -> In x l /\ In y l.
Proof.
  intros (l1 & l2 & l3 & ->). split.
  - apply in_or_app. right. now left.
  - apply in_or_app. right. right. apply in_or_app. right. now left.
Qed.

Lemma before_filter (A : Type) (p : A -> bool) (x y : A) (l : list A) :
  p x = true -> p y = true -> before x y l -> before x y (filter p l).
Proof.
  intros Hx Hy (l1 & l2 & l3 & ->).
  exists (filter p l1), (filter p l2), (filter p l3).
  rewrite filter_app. cbn [filter]. rewrite Hx, filter_app. cbn [filter].
  now rewrite Hy.
Qed.

Lemma filter_eq_cons_app (A : Type) (p : A -> bool) (l : list A) :
  forall l1 e l2,
    filter p l = l1 ++ e :: l2 ->
    exists t1 t2, l = t1 ++ e :: t2 /\ filter p t1 = l1 /\ filter p t2 = l2.
Proof.
  induction l as [|a l IH]; intros l1 e l2 H; cbn [filter] in H.
  - destruct l1; discriminate H.
  - destruct (p a) eqn:Ha.
    + destruct l1 as [|b l1]; cbn [app] in H; injection H as -> H.
      * now exists [], l.
      * apply IH in H as (t1 & t2 & -> & <- & <-).
        exists (b :: t1), t2. cbn [filter]. now rewrite Ha.
    + apply IH in H as (t1 & t2 & -> & <- & <-).
      exists (a :: t1), t2. cbn [filter]. now rewrite Ha.
Qed.

Lemma before_filter_inv (A : Type) (p : A -> bool) (x y : A) (l : list A) :
  before x y (filter p l) -> before x y l.
Proof.
  intros (l1 & l2 & l3 & H).
  apply filter_eq_cons_app in H as (t1 & t' & -> & _ & H).
  apply filter_eq_cons_app in H as (t2 & t3 & -> & _ & _).
  now exists t1, t2, t3.
Qed.

Lemma mapGet_In (t : scoreMap) (k : jsstring) (v : Z) :
  NoDup (keys t) -> In (k, v) t -> mapGet t k = Some v.
Proof.
  induction t as [|[k' v'] t IH]; intros Hnd Hin; [destruct Hin|].
  cbn [keys map fst] in Hnd. fold (keys t) in Hnd.
  inversion Hnd as [|? ? Hnotin Hnd']; subst. cbn [mapGet].
  destruct Hin as [[= -> ->]|Hin].
  - now rewrite eqs_refl.
  - destruct (eqs k' k) eqn:Hk; [|now apply IH].
    apply eqs_eq in Hk. subst k'. exfalso. apply Hnotin.
    unfold keys. change k with (fst (k, v)). now apply in_map.
Qed.

(** X10: the reviewers taken from the score table are listed by descending
    score, and reviewers of equal score in the order in which they entered
    the table. *)
Theorem reviewers_ranked_by_score (changedFiles : list jsstring) (cfg : config)
    (prAuthor : jsstring) (maxReviewers : jsint) (t : scoreMap) (l : list jsstring)
    (x y : jsstring) :
  scoreRules changedFiles prAuthor (reviewers cfg) [] = Ok t ->
  t <> [] ->
  run changedFiles cfg prAuthor maxReviewers = Ok l ->
  before x y l ->
  (scoreOf t y <= scoreOf t x)%Z
  /\ (scoreOf t x = scoreOf t y -> before x y (keys t)).
Proof.
  intros Ht Hne Hrun Hxy. unfold run in Hrun. rewrite Ht in Hrun. cbn [bind] in Hrun.
  assert (Hlen : (length t =? 0) = false) by (destruct t; [congruence|reflexivity]).
  rewrite Hlen in Hrun. injection Hrun as <-.
  destruct (slice0_firstn _ (map fst (sortByScore t)) maxReviewers) as [n Hn].
  rewrite Hn in Hxy. apply before_firstn in Hxy.
  apply before_map_fst in Hxy as (vx & vy & Hb).
  apply scoreRules_keys in Ht as [Hnd _]. specialize (Hnd (NoDup_nil _)).
  destruct (before_In _ _ _ _ Hb) as [Hinx Hiny].
  apply (Permutation_in _ (sortByScore_perm t)) in Hinx, Hiny.
  unfold scoreOf.
  rewrite (mapGet_In _ _ _ Hnd Hinx), (mapGet_In _ _ _ Hnd Hiny). cbn [orZero].
  split.
  - apply (sorted_before _ _ _ _ _ (sortByScore_sorted t)) in Hb. exact Hb.
  - intros Heq. subst vy.
    apply (before_filter _ (fun e => (snd e =? vx)%Z)) in Hb;
      try (cbn [snd]; apply Z.eqb_refl).
    rewrite sortByScore_stable in Hb. apply before_filter_inv in Hb.
    apply (before_map _ _ fst) in Hb. exact Hb.
Qed.

Lemma reviewers_ranked_by_score_witness :
  (scoreOf [(str "ops", 1%Z); (str "lead", 2%Z); (str "dev", 1%Z)] (str "dev")
   <= scoreOf [(str "ops", 1%Z); (str "lead", 2%Z); (str "dev", 1%Z)] (str "ops"))%Z
  /\ (scoreOf [(str "ops", 1%Z); (str "lead", 2%Z); (str "dev", 1%Z)] (str "ops")
      = scoreOf [(str "ops", 1%Z); (str "lead", 2%Z); (str "dev", 1%Z)] (str "dev")
      -> before (str "ops") (str "dev")
           (keys [(str "ops", 1%Z); (str "lead", 2%Z); (str "dev", 1%Z)])).
Proof.
  apply (reviewers_ranked_by_score [str "infra/main.tf"]
           (mkConfig
              [mkRule (JArray [JString (str "*.tf")])
                      (JArray [JString (str "ops"); JString (str "lead")]);
               mkRule (JArray [JString (str "infra/**")])
                      (JArray [JString (str "lead"); JString (str "dev")])]
              None)
           (str "author") (Int 3)
           [(str "ops", 1%Z); (str "lead", 2%Z); (str "dev", 1%Z)]
           [str "lead"; str "ops"; str "dev"] (str "ops") (str "dev")).
  - vm_compute. reflexivity.
  - discriminate.
  - vm_compute. reflexivity.
  - exists [str "lead"], [], []. reflexivity.
Defined.

(** ** The defaults and well-formed configurations *)

Lemma filterNotAuthor_strings (ds : list jsstring) (prAuthor : jsstring) :
  filterNotAuthor (map JString ds) prAuthor
  = Ok (filter (fun d => negb (eqs (toLowerCase d) (toLowerCase prAuthor))) ds).
Proof.
  induction ds as [|d ds IH]; [reflexivity|].
  cbn [map filterNotAuthor filter]. rewrite IH. cbn [bind].
  now destruct (negb (eqs (toLowerCase d) (toLowerCase prAuthor))).
Qed.

(** X11: when no reviewer got a score and the defaults are a list of
    strings, the result is the defaults without the author, in their
    order, cut by [slice(0, maxReviewers)]. *)
Theorem defaults_filtered_in_order (changedFiles : list jsstring) (cfg : config)
    (prAuthor : jsstring) (maxReviewers : jsint) (ds : list jsstring) :
  scoreRules changedFiles prAuthor (reviewers cfg) [] = Ok [] ->
  defaults cfg = Some (JArray (map JString ds)) ->
  run changedFiles cfg prAuthor maxReviewers
  = Ok (slice0
          (filter (fun d => negb (eqs (toLowerCase d) (toLowerCase prAuthor))) ds)
          maxReviewers).
Proof.
  intros Ht Hd. rewrite run_candidates. unfold candidates.
  rewrite Ht, Hd. cbn [bind length Nat.eqb truthy filterDefaults].
  now rewrite filterNotAuthor_strings.
Qed.

Lemma defaults_filtered_in_order_witness :
  run [str "docs/a.md"]
    (mkConfig [mkRule (JArray [JString (str "src/**")]) (JArray [JString (str "bob")])]
              (Some (JArray (map JString [str "lead1"; str "Lead2"; str "lead3"]))))
    (str "lead2") (Int 5)
  = Ok (slice0
          (filter (fun d => negb (eqs (toLowerCase d) (toLowerCase (str "lead2"))))
             [str "lead1"; str "Lead2"; str "lead3"])
          (Int 5)).
Proof.
  apply defaults_filtered_in_order.
  - vm_compute. reflexivity.
  - reflexivity.
Defined.





(** X13: default reviewers given as one string, not as a list, make [run]
    fail when they are needed, although one string is accepted for
    [patterns] and [users]: with an empty score table, a truthy
    [defaults.reviewers] that is no array has no [filter] method. *)
Theorem scalar_defaults_rejected (changedFiles : list jsstring) (cfg : config)
    (prAuthor : jsstring) (maxReviewers : jsint) (v : jsval) :
  scoreRules changedFiles prAuthor (reviewers cfg) [] = Ok [] ->
  defaults cfg = Some v ->
  truthy v = true ->
  (forall elems, v <> JArray elems) ->
  run changedFiles cfg prAuthor maxReviewers = Throw TypeError.
Proof.
  intros Ht Hd Htr Hv. unfold run. rewrite Ht, Hd. cbn [bind length Nat.eqb].
  rewrite Htr. destruct v as [| | | | |elems]; try reflexivity.
  now destruct (Hv elems).
Qed.

Lemma scalar_defaults_rejected_witness :
  run [str "docs/a.md"]
    (mkConfig [mkRule (JString (str "src/**")) (JString (str "bob"))]
              (Some (JString (str "team-lead"))))
    (str "alice") (Int 2)
  = Throw TypeError.
Proof.
  apply (scalar_defaults_rejected [str "docs/a.md"]
           (mkConfig [mkRule (JString (str "src/**")) (JString (str "bob"))]
                     (Some (JString (str "team-lead"))))
           (str "alice") (Int 2) (JString (str "team-lead"))).
  - vm_compute. reflexivity.
  - reflexivity.
  - reflexivity.
  - discriminate.
Defined.

(** X14: a rule that does not match is inert: wherever it stands among the
    rules, and whatever its [users] field holds, the result is that of
    the other rules. *)
Theorem unmatched_rule_is_inert (changedFiles : list jsstring) (prAuthor : jsstring)
    (maxReviewers : jsint) (rs1 rs2 : list rule) (r : rule) (d : option jsval) :
  ruleMatched changedFiles r = Ok false ->
  run changedFiles (mkConfig (rs1 ++ r :: rs2) d) prAuthor maxReviewers
  = run changedFiles (mkConfig (rs1 ++ rs2) d) prAuthor maxReviewers.
Proof.
  intros Hm. apply run_drop_rule. intros scores.
  unfold scoreRule. unfold ruleMatched in Hm. now rewrite Hm.
Qed.

Lemma unmatched_rule_is_inert_witness :
  run [str "src/a.js"]
    (mkConfig ([mkRule (JString (str "src/**")) (JString (str "bob"))]
               ++ mkRule (JString (str "docs/**")) JUndefined :: [])
              None)
    (str "alice") (Int 2)
  = run [str "src/a.js"]
      (mkConfig ([mkRule (JString (str "src/**")) (JString (str "bob"))] ++ []) None)
      (str "alice") (Int 2).
Proof.
  apply unmatched_rule_is_inert. vm_compute. reflexivity.
Defined.

(** X15: nobody is lost before the truncation: when [maxReviewers] is at
    least the number of reviewers with a score, the result holds exactly
    the users of the matching rules other than the author. *)
Theorem every_eligible_reviewer_assigned (changedFiles : list jsstring) (cfg : config)
    (prAuthor : jsstring) (z : Z) (t : scoreMap) (l : list jsstring) :
  scoreRules changedFiles prAuthor (reviewers cfg) [] = Ok t ->
  t <> [] ->
  (Z.of_nat (length t) <= z)%Z ->
  run changedFiles cfg prAuthor (Int z) = Ok l ->
  forall x,
    In x l <->
    exists r, In r (reviewers cfg) /\ ruleMatched changedFiles r = Ok true
              /\ In (JString x) (asArray (users r)) /\ notAuthor prAuthor x.
Proof.
  intros Ht Hne Hz Hrun x. unfold run in Hrun. rewrite Ht in Hrun. cbn [bind] in Hrun.
  assert (Hlen : (length t =? 0) = false) by (destruct t; [congruence|reflexivity]).
  rewrite Hlen in Hrun. injection Hrun as <-.
  assert (Hall : slice0 (map fst (sortByScore t)) (Int z) = map fst (sortByScore t)).
  { unfold slice0. destruct (Z.ltb_spec z 0); [lia|].
    apply firstn_all2.
    rewrite length_map, (Permutation_length (sortByScore_perm t)). lia. }
  rewrite Hall, sortByScore_keys.
  apply scoreRules_keys in Ht as [_ Hin]. rewrite Hin. cbn [keys map In]. tauto.
Qed.

Lemma every_eligible_reviewer_assigned_witness :
  In (str "carol") [str "bob"; str "carol"] <->
  exists r,
    In r [mkRule (JString (str "src/**"))
                 (JArray [JString (str "bob"); JString (str "carol");
                          JString (str "Alice")])]
    /\ ruleMatched [str "src/a.js"] r = Ok true
    /\ In (JString (str "carol")) (asArray (users r))
    /\ notAuthor (str "alice") (str "carol").
Proof.
  refine (every_eligible_reviewer_assigned [str "src/a.js"]
           (mkConfig [mkRule (JString (str "src/**"))
                             (JArray [JString (str "bob"); JString (str "carol");
                                      JString (str "Alice")])]
                     None)
           (str "alice") 2%Z [(str "bob", 1%Z); (str "carol", 1%Z)]
           [str "bob"; str "carol"] _ _ _ _ (str "carol")).
  - vm_compute. reflexivity.
  - discriminate.
  - cbn. lia.
  - vm_compute. reflexivity.
Defined.

(** X16: raising [maxReviewers] only adds reviewers at the end: for
    [0 <= z1 <= z2] the result for [z1] is the result for [z2] cut to its
    first [z1] entries. *)
Theorem larger_max_extends_result (changedFiles : list jsstring) (cfg : config)
    (prAuthor : jsstring) (z1 z2 : Z) (l1 l2 : list jsstring) :
  (0 <= z1 <= z2)%Z ->
  run changedFiles cfg prAuthor (Int z1) = Ok l1 ->
  run changedFiles cfg prAuthor (Int z2) = Ok l2 ->
  l1 = firstn (Z.to_nat z1) l2.
Proof.
  intros Hz H1 H2.
  apply run_inv in H1 as (c & Hc & ->).
  apply run_inv in H2 as (c' & Hc' & ->).
  rewrite Hc in Hc'. injection Hc' as <-.
  unfold slice0.
  destruct (Z.ltb_spec z1 0); [lia|]. destruct (Z.ltb_spec z2 0); [lia|].
  rewrite firstn_firstn. f_equal. lia.
Qed.

Lemma larger_max_extends_result_witness :
  [str "lead"] = firstn (Z.to_nat 1) [str "lead"; str "ops"].
Proof.
  apply (larger_max_extends_result [str "infra/main.tf"]
           (mkConfig
              [mkRule (JString (str "*.tf")) (JArray [JString (str "ops"); JString (str "lead")]);
               mkRule (JString (str "infra/**")) (JString (str "lead"))]
              None)
           (str "author") 1%Z 2%Z).
  - lia.
  - vm_compute. reflexivity.
  - vm_compute. reflexivity.
Defined.

(** X17: every pattern matches the path that is spelled like it: the
    wildcards match their own characters, and escaping makes every other
    character match itself. *)
Theorem pattern_matches_itself (pattern : jsstring) :
  matchPattern pattern (JString pattern) = Ok true.
Proof.
  rewrite matchPattern_glob. f_equal. apply test_at_start.
  rewrite <- (app_nil_r pattern) at 2.
  apply (tokens_match_self pattern [REol] accept [] 0). reflexivity.
Qed.

(* ================================================================== *)
(** * Reviewers are told apart by their spelling *)
(* ================================================================== *)

(** C10: reviewers are told apart by their exact spelling, while the author
    is excluded whatever the letter case.  In every configuration, the
    score table has one entry per spelling; the score of an entry is the
    number of times the matching rules list exactly that spelling, so two
    spellings of one login are counted apart; every spelling other than
    the author that a matching rule lists has its entry; two different
    spellings with an entry are both in the result when [maxReviewers] is
    at least the size of the table; and every reviewer of a result is
    spelled as in the rules or in the defaults. *)
Theorem spelling_is_identity (changedFiles : list jsstring) (cfg : config)
    (prAuthor : jsstring) (maxReviewers : jsint) :
  (forall t,
      scoreRules changedFiles prAuthor (reviewers cfg) [] = Ok t ->
      NoDup (keys t)
      /\ (forall u v, In (u, v) t ->
            v = Z.of_nat (listings changedFiles u (reviewers cfg))
            /\ notAuthor prAuthor u)
      /\ (forall u,
            (exists r, In r (reviewers cfg) /\ ruleMatched changedFiles r = Ok true
                       /\ In (JString u) (asArray (users r))) ->
            notAuthor prAuthor u ->
            In (u, Z.of_nat (listings changedFiles u (reviewers cfg))) t)
      /\ (forall u1 u2 v1 v2 z l,
            u1 <> u2 -> In (u1, v1) t -> In (u2, v2) t ->
            maxReviewers = Int z -> (Z.of_nat (length t) <= z)%Z ->
            run changedFiles cfg prAuthor maxReviewers = Ok l ->
            In u1 l /\ In u2 l))
  /\ (forall l x,
        run changedFiles cfg prAuthor maxReviewers = Ok l ->
        In x l ->
        (exists r, In r (reviewers cfg) /\ In (JString x) (asArray (users r)))
        \/ (exists elems, defaults cfg = Some (JArray elems) /\ In (JString x) elems)).
Proof.
  split.
  - intros t Ht.
    destruct (scoreRules_keys _ _ _ _ _ Ht) as [Hnd Hin].
    specialize (Hnd (NoDup_nil _)).
    assert (Hentry : forall u v, In (u, v) t ->
              v = Z.of_nat (listings changedFiles u (reviewers cfg))
              /\ notAuthor prAuthor u).
    { intros u v Huv.
      assert (Hk : In u (keys t)).
      { unfold keys. change u with (fst (u, v)). now apply in_map. }
      apply Hin in Hk as [[]|(r & _ & _ & _ & Hna)]. split; [|exact Hna].
      pose proof (scoreRules_score _ _ _ _ Hna _ _ Ht) as Hs.
      unfold scoreOf in Hs. rewrite (mapGet_In _ _ _ Hnd Huv) in Hs.
      cbn [mapGet orZero] in Hs. lia. }
    split; [exact Hnd|]. split; [exact Hentry|]. split.
    + intros u (r & Hr & Hm & Hu) Hna.
      assert (Hk : In u (keys t)) by (apply Hin; right; now exists r).
      unfold keys in Hk. apply in_map_iff in Hk as ([u' v] & Hfst & Huv).
      cbn [fst] in Hfst. subst u'.
      now rewrite <- (proj1 (Hentry u v Huv)).
    + intros u1 u2 v1 v2 z l _ H1 H2 -> Hz Hrun.
      unfold run in Hrun. rewrite Ht in Hrun. cbn [bind] in Hrun.
      assert (Hlen : (length t =? 0) = false) by (destruct t; [destruct H1|reflexivity]).
      rewrite Hlen in Hrun. injection Hrun as <-.
      assert (Hall : slice0 (map fst (sortByScore t)) (Int z) = map fst (sortByScore t)).
      { unfold slice0. destruct (Z.ltb_spec z 0); [lia|].
        apply firstn_all2.
        rewrite length_map, (Permutation_length (sortByScore_perm t)). lia. }
      rewrite Hall, !sortByScore_keys. unfold keys.
      split; [change u1 with (fst (u1, v1))|change u2 with (fst (u2, v2))];
        now apply in_map.
  - intros l x Hrun Hx.
    apply run_inv in Hrun as (c & Hc & ->). apply slice0_In in Hx.
    apply candidates_inv in Hc as (t & Ht & [[_ ->]|[_ [->|(elems & Hd & Hf)]]]).
    + rewrite sortByScore_keys in Hx.
      apply scoreRules_keys in Ht as [_ Hin].
      apply Hin in Hx as [[]|(r & Hr & _ & Hu & _)].
      left. now exists r.
    + destruct Hx.
    + apply (filterNotAuthor_In _ _ _ Hf) in Hx as [Hx _].
      right. now exists elems.
Qed.

Lemma spelling_is_identity_witness :
  (2%Z = Z.of_nat
           (listings [str "src/a.js"] (str "Alice")
              [mkRule (JString (str "src/**")) (JString (str "Alice"));
               mkRule (JString (str "*.js")) (JString (str "alice"));
               mkRule (JString (str "**")) (JString (str "Alice"))])
   /\ notAuthor (str "carol") (str "Alice"))
  /\ In (str "alice", Z.of_nat
           (listings [str "src/a.js"] (str "alice")
              [mkRule (JString (str "src/**")) (JString (str "Alice"));
               mkRule (JString (str "*.js")) (JString (str "alice"));
               mkRule (JString (str "**")) (JString (str "Alice"))]))
        [(str "Alice", 2%Z); (str "alice", 1%Z)]
  /\ (In (str "Alice") [str "Alice"; str "alice"]
      /\ In (str "alice") [str "Alice"; str "alice"]).
Proof.
  destruct (proj1 (spelling_is_identity [str "src/a.js"]
                     (mkConfig
                        [mkRule (JString (str "src/**")) (JString (str "Alice"));
                         mkRule (JString (str "*.js")) (JString (str "alice"));
                         mkRule (JString (str "**")) (JString (str "Alice"))]
                        None)
                     (str "carol") (Int 2))
              [(str "Alice", 2%Z); (str "alice", 1%Z)] eq_refl)
    as (_ & Hentry & Hlisted & Hboth).
  split; [|split].
  - apply Hentry. left. reflexivity.
  - apply Hlisted.
    + eexists. split; [right; left; reflexivity|].
      split; [vm_compute; reflexivity|]. left. reflexivity.
    + unfold notAuthor. vm_compute. discriminate.
  - apply (Hboth (str "Alice") (str "alice") 2%Z 1%Z 2%Z).
    + vm_compute. discriminate.
    + left. reflexivity.
    + right. left. reflexivity.
    + reflexivity.
    + cbn. lia.
    + vm_compute. reflexivity.
Defined.
